(** * array.h: a growable array and a strided view over raw memory

    A shallow embedding of [array_t<T>] and [array_view_t<T>] from
    [array.h], over an explicit byte-addressed heap.  Elements are plain
    data: a value of type [T] is the [sizeof(T)] bytes that represent it. *)

From Stdlib Require Import ZArith Lia Strings.Byte.
From stdpp Require Import gmap list.

Local Open Scope Z_scope.

(** ** Machine integers *)

(** [size_t] is a 64-bit unsigned integer; every arithmetic operation on it
    is reduced modulo [2^64]. *)
Definition size_max : Z := 2 ^ 64.
Definition wrap (x : Z) : Z := x mod size_max.

(** ** Results of running a piece of code *)

Inductive outcome (A : Type) : Type :=
| Done (a : A)        (* the call returns normally *)
| AssertFailed        (* an ARRAY_ASSERT was hit with a false condition *)
| Undefined.          (* an access outside a live allocation, or a bad free *)
Arguments Done {A} a.
Arguments AssertFailed {A}.
Arguments Undefined {A}.

Global Instance outcome_ret : MRet outcome := fun A a => Done a.
Global Instance outcome_bind : MBind outcome := fun A B k m =>
  match m with
  | Done a => k a
  | AssertFailed => AssertFailed
  | Undefined => Undefined
  end.

(** ** Pointers and the heap *)

(** A pointer remembers the allocation it was derived from ([base], the
    address [malloc] returned) and its displacement inside it; its numeric
    value is [base + off].  The null pointer has value 0. *)
Record ptr : Type := Ptr { base : Z; off : Z }.

Definition null : ptr := Ptr 0 0.
Definition is_null (p : ptr) : bool := (base p =? 0) && (off p =? 0).
Definition ptr_add (p : ptr) (n : Z) : ptr := Ptr (base p) (off p + n).

(** The heap: the live allocations with their bytes, keyed by their start
    address, the next address the allocator hands out, and the number of
    calls made to the allocator so far. *)
Record heap : Type := Heap {
  blocks : gmap Z (list byte);
  brk : Z;
  mallocs : nat
}.

Definition empty_heap : heap := Heap ∅ 4096 0.

(** No live allocation starts at or beyond [brk], and none at address 0. *)
Definition heap_ok (h : heap) : Prop :=
  0 < brk h /\ forall b, b ∈ dom (blocks h) -> 0 < b < brk h.

(** The bytes of the allocation a buffer pointer designates; the null
    pointer designates the empty buffer. *)
Definition buffer (h : heap) (p : ptr) : option (list byte) :=
  if is_null p then Some []
  else if off p =? 0 then blocks h !! base p else None.

(** Nothing was allocated or released between [h] and [h']: the same
    allocations are live and the allocator was not called. *)
Definition same_allocations (h h' : heap) : Prop :=
  mallocs h' = mallocs h /\ brk h' = brk h /\ dom (blocks h') = dom (blocks h).

Section Primitives.

(** What the allocator returns for a request of zero bytes is left to the
    implementation by the C standard: either the null pointer or a pointer
    to a fresh allocation that must not be accessed. *)
Variable malloc_zero_null : bool.

(** The bytes found in freshly allocated memory, by address. *)
Variable uninit : Z -> byte.

Definition fresh (b n : Z) : list byte := (fun i => uninit (b + i)) <$> seqZ 0 n.

(** Modelled from the spec: the [allocate(size)] primitive (the macro
    ARRAY_MALLOC, by default the C library's malloc).  It never fails: running
    out of memory is outside the contract of the container. *)
Definition ARRAY_MALLOC (n : Z) (h : heap) : ptr * heap :=
  if (n =? 0) && malloc_zero_null
  then (null, Heap (blocks h) (brk h) (S (mallocs h)))
  else (Ptr (brk h) 0,
        Heap (<[brk h := fresh (brk h) n]> (blocks h))
             (brk h + Z.max n 1)
             (S (mallocs h))).

(** Modelled from the spec: the [deallocate(pointer)] primitive
    (ARRAY_FREE), a no-op on the null pointer. *)
Definition ARRAY_FREE (p : ptr) (h : heap) : outcome heap :=
  if is_null p then Done h
  else if off p =? 0 then
    match blocks h !! base p with
    | Some _ => Done (Heap (delete (base p) (blocks h)) (brk h) (mallocs h))
    | None => Undefined
    end
  else Undefined.

(** Reading and writing [n] bytes at a pointer.  A transfer of zero bytes
    touches no memory. *)
Definition load (p : ptr) (n : Z) (h : heap) : outcome (list byte) :=
  if n =? 0 then Done []
  else match blocks h !! base p with
       | Some bs =>
           if (0 <=? off p) && (off p + n <=? Z.of_nat (length bs))
           then Done (take (Z.to_nat n) (drop (Z.to_nat (off p)) bs))
           else Undefined
       | None => Undefined
       end.

Definition store (p : ptr) (v : list byte) (h : heap) : outcome heap :=
  if Z.of_nat (length v) =? 0 then Done h
  else match blocks h !! base p with
       | Some bs =>
           if (0 <=? off p) && (off p + Z.of_nat (length v) <=? Z.of_nat (length bs))
           then Done (Heap (<[base p :=
                               take (Z.to_nat (off p)) bs ++ v ++
                               drop (Z.to_nat (off p) + length v) bs]> (blocks h))
                           (brk h) (mallocs h))
           else Undefined
       | None => Undefined
       end.

Definition overlap (dst src : ptr) (n : Z) : bool :=
  (base dst =? base src) && (off dst <? off src + n) && (off src <? off dst + n).

(** Modelled from the spec: [copy_bytes(dst, src, len)] (ARRAY_MEMCPY); the
    two ranges must not overlap. *)
Definition ARRAY_MEMCPY (dst src : ptr) (n : Z) (h : heap) : outcome heap :=
  if overlap dst src n then Undefined
  else bs ← load src n h; store dst bs h.

(** Modelled from the spec: [move_bytes(dst, src, len)] (ARRAY_MEMMOVE); the
    two ranges may overlap. *)
Definition ARRAY_MEMMOVE (dst src : ptr) (n : Z) (h : heap) : outcome heap :=
  bs ← load src n h; store dst bs h.

(** Modelled from the spec: [fatal_check(condition)] (ARRAY_ASSERT). *)
Definition ARRAY_ASSERT (cond : bool) : outcome unit :=
  if cond then Done tt else AssertFailed.

End Primitives.

(** ** array_t *)

Module Array.

Record array_t : Type := Arr { data : ptr; count : Z; capacity : Z }.

(** [array_t<T> a = {}] *)
Definition zero : array_t := Arr null 0 0.

(** An argument of type [const T &].  The object it designates is either
    one of the caller's that lives outside the heap, a local or a temporary
    as in [a.add(10)], given by its bytes; or a [T] at an address of the
    heap, as in [a.add(a.get(0))]. *)
Inductive cref : Type :=
  | Local (v : list byte)
  | InHeap (p : ptr).

Section Methods.

Variable malloc_zero_null : bool.
Variable uninit : Z -> byte.

(** [sizeof(T)] *)
Variable sizeT : Z.

Abbreviation T := (list byte) (only parsing).

Abbreviation malloc := (ARRAY_MALLOC malloc_zero_null uninit).

(** Reading the object a reference designates, at the moment of the read. *)
Definition read (item : cref) (h : heap) : outcome T :=
  match item with
  | Local v => Done v
  | InHeap p => load p sizeT h
  end.

(** [ARRAY_MEMCPY(dst, &item, sizeof(T))] *)
Definition memcpy_from (dst : ptr) (item : cref) (h : heap) : outcome heap :=
  match item with
  | Local v => store dst v h
  | InHeap p => ARRAY_MEMCPY dst p sizeT h
  end.

(** [((T* )data)[id]] as an address *)
Definition slot (a : array_t) (id : Z) : ptr := ptr_add (data a) (id * sizeT).

Definition resize (a : array_t) (to_capacity : Z) (h : heap) : outcome (array_t * heap) :=
  let count1 := if count a >? to_capacity then to_capacity else count a in
  let old_memory := data a in
  let '(new_memory, h1) := malloc (wrap (sizeT * to_capacity)) h in
  (* the source calls memcpy here, not the ARRAY_MEMCPY macro *)
  h2 ← ARRAY_MEMCPY new_memory old_memory (wrap (sizeT * count1)) h1;
  h3 ← ARRAY_FREE old_memory h2;
  Done (Arr new_memory count1 to_capacity, h3).

(** [item] is a reference: it is read in the assignment, after [resize]
    has released the old buffer. *)
Definition add (a : array_t) (item : cref) (h : heap) : outcome (Z * array_t * heap) :=
  '(a1, h1) ← (if wrap (count a + 1) >=? capacity a
                then resize a (if wrap (capacity a * 2) <? 4 then 4 else wrap (capacity a * 2)) h
                else Done (a, h));
  v ← read item h1;
  h2 ← store (slot a1 (count a1)) v h1;
  let a2 := Arr (data a1) (wrap (count a1 + 1)) (capacity a1) in
  Done (wrap (count a2 - 1), a2, h2).

Definition clear (a : array_t) : array_t := Arr (data a) 0 (capacity a).

Definition set (a : array_t) (id : Z) (val : T) (h : heap) : outcome heap :=
  store (slot a id) val h.

Definition get (a : array_t) (id : Z) (h : heap) : outcome T :=
  load (slot a id) sizeT h.

(** [operator[]] *)
Definition index (a : array_t) (id : Z) (h : heap) : outcome T :=
  load (slot a id) sizeT h.

Definition last (a : array_t) (h : heap) : outcome T :=
  load (slot a (wrap (count a - 1))) sizeT h.

(** [each]: the callback receives a reference to the element and may
    overwrite it; it is given here by the value it leaves in the slot. *)
Fixpoint each_from (a : array_t) (e : T -> T) (i : Z) (n : nat) (h : heap) : outcome heap :=
  match n with
  | O => Done h
  | S n' =>
      v ← load (slot a i) sizeT h;
      h1 ← store (slot a i) (e v) h;
      each_from a e (i + 1) n' h1
  end.

Definition each (a : array_t) (e : T -> T) (h : heap) : outcome heap :=
  each_from a e 0 (Z.to_nat (count a)) h.

Definition free (a : array_t) (h : heap) : outcome (array_t * heap) :=
  h1 ← ARRAY_FREE (data a) h;
  Done (zero, h1).

Definition copy (a : array_t) (h : heap) : outcome (array_t * heap) :=
  let '(p, h1) := malloc (wrap (sizeT * capacity a)) h in
  let result := Arr p (count a) (capacity a) in
  h2 ← ARRAY_MEMCPY (data result) (data a) (wrap (sizeT * count a)) h1;
  Done (result, h2).

(** In [remove] and [insert] the index is first stored in an [int64_t]
    and converted back to [size_t] inside each product with [sizeof(T)];
    the round trip is the identity modulo [2^64].  The length handed to
    memmove is a difference of two pointers converted to [size_t]. *)
Definition remove (a : array_t) (aAt : Z) (h : heap) : outcome (array_t * heap) :=
  _ ← ARRAY_ASSERT (aAt <? count a);
  let at_ := aAt in
  let arr := data a in
  h1 ← ARRAY_MEMMOVE (ptr_add arr (wrap (at_ * sizeT)))
                     (ptr_add arr (wrap ((at_ + 1) * sizeT)))
                     (wrap (wrap (count a * sizeT) - wrap ((at_ + 1) * sizeT))) h;
  Done (Arr (data a) (wrap (count a - 1)) (capacity a), h1).

Definition pop (a : array_t) (h : heap) : outcome (array_t * heap) :=
  remove a (wrap (count a - 1)) h.

(** [item] is a reference: it is read by the memcpy, after [resize] has
    released the old buffer and after the memmove has shifted the elements. *)
Definition insert (a : array_t) (aAt : Z) (item : cref) (h : heap) : outcome (array_t * heap) :=
  _ ← ARRAY_ASSERT (aAt <=? count a);
  '(a1, h1) ← (if wrap (count a + 1) >? capacity a
                then resize a (if capacity a <? 1 then 1 else wrap (capacity a * 2)) h
                else Done (a, h));
  let at_ := aAt in
  let arr := data a1 in
  h2 ← ARRAY_MEMMOVE (ptr_add arr (wrap ((at_ + 1) * sizeT)))
                     (ptr_add arr (wrap (at_ * sizeT)))
                     (wrap (wrap (count a1 * sizeT) - wrap (at_ * sizeT))) h1;
  h3 ← memcpy_from (ptr_add arr (wrap (at_ * sizeT))) item h2;
  Done (Arr (data a1) (wrap (count a1 + 1)) (capacity a1), h3).

(** The body of the loop of [reverse], run for [i], [i+1], ... *)
Fixpoint reverse_from (a : array_t) (i : Z) (n : nat) (h : heap) : outcome heap :=
  match n with
  | O => Done h
  | S n' =>
      tmp ← get a i h;
      v ← get a (wrap (wrap (count a - i) - 1)) h;
      h1 ← set a i v h;
      h2 ← set a (wrap (wrap (count a - i) - 1)) tmp h1;
      reverse_from a (i + 1) n' h2
  end.

Definition reverse (a : array_t) (h : heap) : outcome heap :=
  reverse_from a 0 (Z.to_nat (count a / 2)) h.

(** [add] called once for each item of a list, in order. *)
Fixpoint add_all (a : array_t) (items : list cref) (h : heap) : outcome (array_t * heap) :=
  match items with
  | [] => Done (a, h)
  | item :: items' =>
      '(_, a1, h1) ← add a item h;
      add_all a1 items' h1
  end.

(** *** Well-formed arrays *)

(** [data] is null or the start of a live allocation of [capacity]
    elements, of which the first [count] are in use; the size of the buffer
    in bytes is representable. *)
Definition valid (a : array_t) (h : heap) : Prop :=
  heap_ok h /\ 0 <= count a <= capacity a /\ sizeT * capacity a < size_max /\
  exists bs, buffer h (data a) = Some bs /\ Z.of_nat (length bs) = sizeT * capacity a.

(** The buffer holds the elements [vs], one after the other, followed by
    the bytes [rest] of the unused slots. *)
Definition rep (a : array_t) (h : heap) (vs : list T) (rest : list byte) : Prop :=
  heap_ok h /\
  Z.of_nat (length vs) = count a /\
  Forall (fun v => Z.of_nat (length v) = sizeT) vs /\
  buffer h (data a) = Some (concat vs ++ rest) /\
  Z.of_nat (length (concat vs ++ rest)) = sizeT * capacity a /\
  sizeT * capacity a < size_max.

(** The first [n] elements of a buffer. *)
Fixpoint chunks (n : nat) (bs : list byte) : list T :=
  match n with
  | O => []
  | S n' => take (Z.to_nat sizeT) bs :: chunks n' (drop (Z.to_nat sizeT) bs)
  end.

(** After [i] rounds of the loop of [reverse] on [vs], the [i] outermost
    elements on each side have changed places and the middle is untouched. *)
Definition swapped (vs : list T) (i : nat) (ws : list T) : Prop :=
  length ws = length vs /\
  forall k : nat, (k < length vs)%nat ->
    ws !! k = if decide (k < i \/ length vs - i <= k)%nat
              then vs !! (length vs - 1 - k)%nat else vs !! k.

(** [data] is null exactly when [capacity] is 0. *)
Definition null_iff_empty (a : array_t) : Prop :=
  data a = null <-> capacity a = 0.

(** The array holds the sequence [vs], as seen through [count] and [get]. *)
Definition holds (a : array_t) (h : heap) (vs : list T) : Prop :=
  count a = Z.of_nat (length vs) /\
  forall (i : nat) (v : T), vs !! i = Some v -> get a (Z.of_nat i) h = Done v.

(** The allocations that are not the buffer of the array. *)
Definition others (a : array_t) (h : heap) : gmap Z (list byte) :=
  if is_null (data a) then blocks h else delete (base (data a)) (blocks h).

(** [item] designates the value [v] and is not an element of the array: it
    is a local of the caller, or a [T] of an allocation other than the
    buffer. *)
Definition outside (a : array_t) (h : heap) (item : cref) (v : T) : Prop :=
  match item with
  | Local w => w = v
  | InHeap p => base p <> base (data a) /\ load p sizeT h = Done v
  end.

End Methods.

End Array.

(** ** array_view_t *)

Module View.

Record array_view_t : Type := View { data : ptr; count : Z; stride : Z; offset : Z }.

(** [(uint8_t* )data + id*stride + offset] *)
Definition element (v : array_view_t) (id : Z) : ptr :=
  ptr_add (ptr_add (data v) (wrap (id * stride v))) (offset v).

(** [set] writes through the address: [*(T* )(...) = val]. *)
Definition set (v : array_view_t) (id : Z) (val : list byte) (h : heap) : outcome heap :=
  store (element v id) val h.

(** [get], [operator[]], [last] and [each] are written [(T&)(...)], the cast
    being applied to the pointer value itself instead of [*(T* )(...)]; the
    expression designates no [T] of the viewed memory and has no defined
    result, so these members, and [copy_deinterlace] which calls [get], are
    not embedded.  [array_view_create] initialises [offset], a [size_t],
    from a pointer to member, for which the language has no conversion; a
    view is built here from its four fields. *)

End View.

(** ** Concrete states *)

(** An allocator that hands out zeroed memory. *)
Definition zeroed : Z -> byte := fun _ => x00.

(** An array of one-byte elements holding 10 and 20, with capacity 4. *)
Definition demo_array : Array.array_t := Array.Arr (Ptr 4096 0) 2 4.
Definition demo_heap : heap := Heap {[ 4096 := [x0a; x14; x00; x00] ]} 4100 1.

(** A full array of one-byte elements holding 10 and 20 and, in an
    allocation of its own, a byte 99 of the caller's. *)
Definition full_array : Array.array_t := Array.Arr (Ptr 4096 0) 2 2.
Definition full_heap : heap := Heap {[ 4096 := [x0a; x14]; 4200 := [x63] ]} 4300 2.
Definition item_99 : Array.cref := Array.InHeap (Ptr 4200 0).


(** [add(10); add(20); add(30)] on the empty array, one-byte elements. *)
Definition three_adds : outcome (Array.array_t * heap) :=
  Array.add_all false zeroed 1 Array.zero
    [Array.Local [x0a]; Array.Local [x14]; Array.Local [x1e]] empty_heap.

(** [add(10); add(20); pop()] on the empty array. *)
Definition two_adds_and_pop : outcome (Array.array_t * heap) :=
  '(a, h) ← Array.add_all false zeroed 1 Array.zero
              [Array.Local [x0a]; Array.Local [x14]] empty_heap;
  Array.pop 1 a h.

(** Three records [{x, y, z}] of one-byte fields, with [y] = 10, 20, 30. *)
Definition records_heap : heap :=
  Heap {[ 4096 := [x01; x0a; x64; x02; x14; xc8; x03; x1e; xc9] ]} 4105 1.

(** * Properties *)

(** ** Arithmetic on [size_t] *)

Lemma wrap_small (x : Z) : 0 <= x < size_max -> wrap x = x.
Proof. intros H. unfold wrap. apply Z.mod_small. exact H. Qed.

Lemma size_max_eq : size_max = 18446744073709551616.
Proof. reflexivity. Qed.

(** ** Loads and stores inside a buffer *)

Lemma heap_ok_empty : heap_ok empty_heap.
Proof.
  split; [reflexivity |]. intros b Hb. simpl in Hb.
  rewrite dom_empty_L in Hb. set_solver.
Qed.

Lemma buffer_block (h : heap) (p : ptr) (bs : list byte) :
  buffer h p = Some bs -> bs <> [] ->
  is_null p = false /\ off p = 0 /\ blocks h !! base p = Some bs.
Proof.
  unfold buffer. destruct (is_null p); [congruence |].
  destruct (off p =? 0) eqn:E; [| discriminate].
  apply Z.eqb_eq in E. auto.
Qed.

Lemma load_buf (h : heap) (d : ptr) (o n : Z) (pre mid post : list byte) :
  buffer h d = Some (pre ++ mid ++ post) ->
  o = Z.of_nat (length pre) -> n = Z.of_nat (length mid) ->
  load (ptr_add d o) n h = Done mid.
Proof.
  intros Hb -> ->. unfold load.
  destruct (Z.of_nat (length mid) =? 0) eqn:E.
  - apply Z.eqb_eq in E. destruct mid; [reflexivity | simpl in E; lia].
  - apply Z.eqb_neq in E.
    apply buffer_block in Hb as (_ & Ho & Hl).
    2:{ destruct mid; [simpl in E; lia |]. destruct pre; discriminate. }
    simpl. rewrite Hl, Ho.
    rewrite !length_app.
    replace ((0 <=? 0 + Z.of_nat (length pre)) &&
             (0 + Z.of_nat (length pre) + Z.of_nat (length mid) <=?
              Z.of_nat (length pre + (length mid + length post))))%bool with true
      by (symmetry; apply andb_true_intro; split; apply Z.leb_le; lia).
    f_equal.
    replace (Z.to_nat (0 + Z.of_nat (length pre))) with (length pre) by lia.
    rewrite Nat2Z.id, drop_app_length, take_app_length. reflexivity.
Qed.

Lemma store_frame (p : ptr) (v : list byte) (h h' : heap) :
  store p v h = Done h' ->
  brk h' = brk h /\ mallocs h' = mallocs h /\ dom (blocks h') = dom (blocks h).
Proof.
  unfold store. destruct (Z.of_nat (length v) =? 0).
  - intros [= <-]. auto.
  - destruct (blocks h !! base p) as [bs |] eqn:E; [| discriminate].
    destruct (_ && _); [| discriminate].
    intros [= <-]. simpl. repeat split.
    apply dom_insert_lookup_L. rewrite E. eauto.
Qed.

Lemma store_heap_ok (p : ptr) (v : list byte) (h h' : heap) :
  store p v h = Done h' -> heap_ok h -> heap_ok h'.
Proof.
  intros Hs [H1 H2]. apply store_frame in Hs as (Hb & _ & Hd).
  split; rewrite Hb; [exact H1 |]. intros b. rewrite Hd. apply H2.
Qed.

Lemma store_buf (h : heap) (d : ptr) (o : Z) (v pre mid post : list byte) :
  buffer h d = Some (pre ++ mid ++ post) ->
  o = Z.of_nat (length pre) -> length v = length mid ->
  exists h', store (ptr_add d o) v h = Done h' /\
             buffer h' d = Some (pre ++ v ++ post) /\
             (forall q, base q <> base d -> buffer h' q = buffer h q).
Proof.
  intros Hb -> Hv. unfold store.
  destruct (Z.of_nat (length v) =? 0) eqn:E.
  - apply Z.eqb_eq in E. exists h. split; [reflexivity |].
    destruct v; [| simpl in E; lia]. destruct mid; [| discriminate]. auto.
  - apply Z.eqb_neq in E.
    pose proof Hb as Hb0.
    apply buffer_block in Hb as (Hn & Ho & Hl).
    2:{ destruct mid; [simpl in Hv; lia |]. destruct pre; discriminate. }
    simpl. rewrite Hl, Ho.
    rewrite !length_app.
    replace ((0 <=? 0 + Z.of_nat (length pre)) &&
             (0 + Z.of_nat (length pre) + Z.of_nat (length v) <=?
              Z.of_nat (length pre + (length mid + length post))))%bool with true
      by (symmetry; apply andb_true_intro; split; apply Z.leb_le; lia).
    eexists. split; [reflexivity |]. split.
    + unfold buffer. rewrite Hn, Ho. simpl. rewrite lookup_insert_eq. f_equal.
      replace (Z.to_nat (0 + Z.of_nat (length pre))) with (length pre) by lia.
      rewrite take_app_length. f_equal. f_equal.
      rewrite drop_app_ge by lia.
      replace (length pre + length v - length pre)%nat with (length mid) by lia.
      rewrite drop_app_length. reflexivity.
    + intros q Hq. unfold buffer. simpl.
      rewrite lookup_insert_ne by congruence. reflexivity.
Qed.

Lemma split3 (l : list byte) (x y : Z) :
  0 <= x -> 0 <= y -> x + y <= Z.of_nat (length l) ->
  exists l1 l2 l3, l = l1 ++ l2 ++ l3 /\
                   Z.of_nat (length l1) = x /\ Z.of_nat (length l2) = y.
Proof.
  intros Hx Hy Hl.
  exists (take (Z.to_nat x) l), (take (Z.to_nat y) (drop (Z.to_nat x) l)),
         (drop (Z.to_nat y) (drop (Z.to_nat x) l)).
  rewrite !take_drop, !length_take, length_drop. repeat split; lia.
Qed.

Lemma ptr_add_0 (p : ptr) : ptr_add p 0 = p.
Proof. destruct p as [b o]. unfold ptr_add. simpl. f_equal. lia. Qed.

Lemma buffer_cases (h : heap) (p : ptr) (bs : list byte) :
  buffer h p = Some bs ->
  (is_null p = true /\ bs = []) \/
  (is_null p = false /\ off p = 0 /\ blocks h !! base p = Some bs).
Proof.
  unfold buffer. destruct (is_null p).
  - intros [= <-]. auto.
  - destruct (off p =? 0) eqn:E; [| discriminate].
    apply Z.eqb_eq in E. auto.
Qed.

Lemma is_null_base (p : ptr) : is_null p = true -> base p = 0.
Proof.
  unfold is_null. intros H. apply andb_true_iff in H as [H _].
  apply Z.eqb_eq in H. exact H.
Qed.

Lemma buffer_in_heap (h : heap) (p : ptr) (bs : list byte) :
  heap_ok h -> buffer h p = Some bs -> 0 <= base p < brk h.
Proof.
  intros [H1 H2] Hb. apply buffer_cases in Hb as [[Hn _] | (_ & _ & Hl)].
  - apply is_null_base in Hn. lia.
  - assert (base p ∈ dom (blocks h)) as Hd by (apply elem_of_dom; eauto).
    apply H2 in Hd. lia.
Qed.

Lemma is_null_eq (p : ptr) : is_null p = true <-> p = null.
Proof.
  destruct p as [b o]. unfold is_null, null. simpl. split.
  - intros H. apply andb_true_iff in H as [H1 H2].
    apply Z.eqb_eq in H1, H2. congruence.
  - intros [= -> ->]. reflexivity.
Qed.

Lemma buffer_is_null (h : heap) (p : ptr) : is_null p = true -> buffer h p = Some [].
Proof. intros H. unfold buffer. rewrite H. reflexivity. Qed.

Lemma load_buf0 (h : heap) (d : ptr) (n : Z) (mid post : list byte) :
  buffer h d = Some (mid ++ post) -> n = Z.of_nat (length mid) ->
  load d n h = Done mid.
Proof.
  intros Hb Hn. rewrite <- (ptr_add_0 d).
  apply (load_buf h d 0 n [] mid post); [exact Hb | reflexivity | exact Hn].
Qed.

Lemma store_buf0 (h : heap) (d : ptr) (v mid post : list byte) :
  buffer h d = Some (mid ++ post) -> length v = length mid ->
  exists h', store d v h = Done h' /\
             buffer h' d = Some (v ++ post) /\
             (forall q, base q <> base d -> buffer h' q = buffer h q).
Proof.
  intros Hb Hv.
  destruct (store_buf h d 0 v [] mid post Hb eq_refl Hv) as (h' & Hs & Hb' & Hf).
  rewrite ptr_add_0 in Hs. exists h'. auto.
Qed.

Lemma overlap_zero (d s : ptr) : overlap d s 0 = false.
Proof.
  unfold overlap. destruct (base d =? base s); [simpl | reflexivity].
  destruct (off d <? off s + 0) eqn:E1; [simpl | reflexivity].
  apply Z.ltb_lt in E1. apply Z.ltb_ge. lia.
Qed.

Lemma overlap_other (d s : ptr) (n : Z) : base d <> base s -> overlap d s n = false.
Proof.
  intros H. unfold overlap. apply Z.eqb_neq in H. rewrite H. reflexivity.
Qed.

Section Allocator.

Variable malloc_zero_null : bool.
Variable uninit : Z -> byte.

Lemma length_fresh (b n : Z) : 0 <= n -> Z.of_nat (length (fresh uninit b n)) = n.
Proof. intros H. unfold fresh. rewrite length_fmap, length_seqZ. lia. Qed.

Lemma malloc_spec (n : Z) (h h1 : heap) (p : ptr) :
  heap_ok h -> 0 <= n ->
  ARRAY_MALLOC malloc_zero_null uninit n h = (p, h1) ->
  heap_ok h1 /\ mallocs h1 = S (mallocs h) /\
  buffer h1 p = Some (fresh uninit (brk h) n) /\
  (is_null p = true \/ base p = brk h) /\
  (0 < n -> is_null p = false) /\
  (n = 0 -> malloc_zero_null = true -> p = null) /\
  (forall q bs, buffer h q = Some bs -> buffer h1 q = Some bs).
Proof.
  intros Hok Hn. unfold ARRAY_MALLOC.
  destruct ((n =? 0) && malloc_zero_null)%bool eqn:E; intros [= <- <-].
  - apply andb_true_iff in E as [E _]. apply Z.eqb_eq in E. subst n.
    destruct Hok as [H1 H2].
    split; [split; [exact H1 | exact H2] |]. split; [reflexivity |].
    split; [reflexivity |]. split; [left; reflexivity |].
    split; [lia |]. split; auto.
  - destruct Hok as [H1 H2].
    assert (is_null (Ptr (brk h) 0) = false) as Hnn.
    { unfold is_null. simpl. replace (brk h =? 0) with false; [reflexivity |].
      symmetry. apply Z.eqb_neq. lia. }
    split; [split; simpl; [lia |] |].
    { intros b Hb. rewrite dom_insert_L in Hb.
      apply elem_of_union in Hb as [Hb | Hb].
      - apply elem_of_singleton in Hb. lia.
      - apply H2 in Hb. lia. }
    split; [reflexivity |]. split.
    { unfold buffer. rewrite Hnn. simpl. apply lookup_insert_eq. }
    split; [right; reflexivity |]. split; [intros _; exact Hnn |].
    split.
    { intros -> ->. discriminate E. }
    intros q bs Hq. pose proof Hq as Hq'.
    apply buffer_cases in Hq as [[Hz ->] | (Hz & Ho & Hl)].
    + unfold buffer. rewrite Hz. reflexivity.
    + unfold buffer. rewrite Hz, Ho. simpl.
      rewrite lookup_insert_ne; [exact Hl |].
      assert (base q ∈ dom (blocks h)) as Hd by (apply elem_of_dom; eauto).
      apply H2 in Hd. lia.
Qed.

End Allocator.

Lemma free_spec (h : heap) (p : ptr) (bs : list byte) :
  heap_ok h -> buffer h p = Some bs ->
  exists h', ARRAY_FREE p h = Done h' /\ heap_ok h' /\
             mallocs h' = mallocs h /\ brk h' = brk h /\
             (forall q, is_null p = true \/ base q <> base p ->
                        buffer h' q = buffer h q).
Proof.
  intros Hok Hb. unfold ARRAY_FREE.
  apply buffer_cases in Hb as [[Hz _] | (Hz & Ho & Hl)]; rewrite Hz.
  - exists h. auto.
  - rewrite Ho, Hl. simpl. eexists. split; [reflexivity |].
    destruct Hok as [H1 H2].
    split; [split; simpl; [exact H1 |] |].
    { intros b Hb. rewrite dom_delete_L in Hb.
      apply elem_of_difference in Hb as [Hb _]. apply H2 in Hb. lia. }
    split; [reflexivity |]. split; [reflexivity |].
    + intros q [Hq | Hq]; [congruence |].
      unfold buffer. simpl. rewrite lookup_delete_ne by congruence. reflexivity.
Qed.

(** ** Operations that leave the allocations alone *)

Lemma same_allocations_refl (h : heap) : same_allocations h h.
Proof. repeat split. Qed.

Lemma same_allocations_trans (h1 h2 h3 : heap) :
  same_allocations h1 h2 -> same_allocations h2 h3 -> same_allocations h1 h3.
Proof. intros (A1 & A2 & A3) (B1 & B2 & B3). repeat split; congruence. Qed.

Lemma store_same (p : ptr) (v : list byte) (h h' : heap) :
  store p v h = Done h' -> same_allocations h h'.
Proof. intros H. apply store_frame in H as (H1 & H2 & H3). repeat split; assumption. Qed.

Lemma bind_Done {A B : Type} (m : outcome A) (k : A -> outcome B) (b : B) :
  m ≫= k = Done b -> exists x, m = Done x /\ k x = Done b.
Proof. destruct m as [x | |]; simpl; intros H; try discriminate. eauto. Qed.

Lemma memmove_same (d s : ptr) (n : Z) (h h' : heap) :
  ARRAY_MEMMOVE d s n h = Done h' -> same_allocations h h'.
Proof.
  unfold ARRAY_MEMMOVE. intros H.
  apply bind_Done in H as (bs & _ & H). eapply store_same; exact H.
Qed.

Lemma memcpy_same (d s : ptr) (n : Z) (h h' : heap) :
  ARRAY_MEMCPY d s n h = Done h' -> same_allocations h h'.
Proof.
  unfold ARRAY_MEMCPY. destruct (overlap d s n); [discriminate |]. intros H.
  apply bind_Done in H as (bs & _ & H). eapply store_same; exact H.
Qed.

Lemma memcpy_from_same (sizeT : Z) (d : ptr) (item : Array.cref) (h h' : heap) :
  Array.memcpy_from sizeT d item h = Done h' -> same_allocations h h'.
Proof.
  destruct item as [v | p]; simpl; intros H.
  - eapply store_same; exact H.
  - eapply memcpy_same; exact H.
Qed.

Section Frame.

Variable malloc_zero_null : bool.
Variable uninit : Z -> byte.
Variable sizeT : Z.

Lemma remove_frame (a a' : Array.array_t) (i : Z) (h h' : heap) :
  Array.remove sizeT a i h = Done (a', h') ->
  Array.data a' = Array.data a /\ Array.capacity a' = Array.capacity a /\
  same_allocations h h'.
Proof.
  unfold Array.remove. intros H.
  apply bind_Done in H as (_ & _ & H).
  apply bind_Done in H as (h1 & Hm & H).
  injection H as <- <-. simpl. split; [reflexivity |]. split; [reflexivity |].
  eapply memmove_same; exact Hm.
Qed.

Lemma reverse_from_frame (a : Array.array_t) (n : nat) :
  forall (i : Z) (h h' : heap),
  Array.reverse_from sizeT a i n h = Done h' -> same_allocations h h'.
Proof.
  induction n as [| n IH]; intros i h h' H; simpl in H.
  - injection H as <-. apply same_allocations_refl.
  - apply bind_Done in H as (tmp & _ & H).
    apply bind_Done in H as (v & _ & H).
    apply bind_Done in H as (h1 & H1 & H).
    apply bind_Done in H as (h2 & H2 & H).
    apply store_same in H1, H2. apply IH in H.
    eauto using same_allocations_trans.
Qed.

Lemma each_from_frame (a : Array.array_t) (e : list byte -> list byte) (n : nat) :
  forall (i : Z) (h h' : heap),
  Array.each_from sizeT a e i n h = Done h' -> same_allocations h h'.
Proof.
  induction n as [| n IH]; intros i h h' H; simpl in H.
  - injection H as <-. apply same_allocations_refl.
  - apply bind_Done in H as (v & _ & H).
    apply bind_Done in H as (h1 & H1 & H).
    apply store_same in H1. apply IH in H.
    eauto using same_allocations_trans.
Qed.

(** C10: [clear], [set], [get], [pop], [remove], [reverse] and [each] never
    reallocate: whenever they return, [data] and [capacity] are what they
    were and no allocation was made or released ([get] and [set], [reverse]
    and [each] do not assign any field of the array, and [get] only reads).
    [add] and [insert] do the same when their growth test is false; the
    calls to the allocator are those in [resize], [free] and [copy]. *)
Theorem no_reallocation (a : Array.array_t) (h : heap) :
  (Array.data (Array.clear a) = Array.data a /\
   Array.capacity (Array.clear a) = Array.capacity a) /\
  (forall id val h', Array.set sizeT a id val h = Done h' -> same_allocations h h') /\
  (forall a' h', Array.pop sizeT a h = Done (a', h') ->
     Array.data a' = Array.data a /\ Array.capacity a' = Array.capacity a /\
     same_allocations h h') /\
  (forall i a' h', Array.remove sizeT a i h = Done (a', h') ->
     Array.data a' = Array.data a /\ Array.capacity a' = Array.capacity a /\
     same_allocations h h') /\
  (forall h', Array.reverse sizeT a h = Done h' -> same_allocations h h') /\
  (forall e h', Array.each sizeT a e h = Done h' -> same_allocations h h') /\
  (forall item r a' h',
     (wrap (Array.count a + 1) >=? Array.capacity a) = false ->
     Array.add malloc_zero_null uninit sizeT a item h = Done (r, a', h') ->
     Array.data a' = Array.data a /\ Array.capacity a' = Array.capacity a /\
     same_allocations h h') /\
  (forall i item a' h',
     (wrap (Array.count a + 1) >? Array.capacity a) = false ->
     Array.insert malloc_zero_null uninit sizeT a i item h = Done (a', h') ->
     Array.data a' = Array.data a /\ Array.capacity a' = Array.capacity a /\
     same_allocations h h').
Proof.
  split; [split; reflexivity |].
  split; [intros id val h' H; eapply store_same; exact H |].
  split; [intros a' h' H; eapply remove_frame; exact H |].
  split; [intros i a' h' H; eapply remove_frame; exact H |].
  split; [intros h' H; eapply reverse_from_frame; exact H |].
  split; [intros e h' H; eapply each_from_frame; exact H |].
  split.
  - intros item r a' h' Hno H. unfold Array.add in H. rewrite Hno in H.
    simpl in H. apply bind_Done in H as (v & _ & H).
    apply bind_Done in H as (h2 & Hst & H).
    injection H as _ <- <-. simpl.
    split; [reflexivity |]. split; [reflexivity |]. eapply store_same; exact Hst.
  - intros i item a' h' Hno H. unfold Array.insert in H. rewrite Hno in H.
    apply bind_Done in H as (_ & _ & H). simpl in H.
    apply bind_Done in H as (h2 & Hmv & H).
    apply bind_Done in H as (h3 & Hst & H).
    injection H as <- <-. simpl.
    split; [reflexivity |]. split; [reflexivity |].
    eapply same_allocations_trans; [eapply memmove_same | eapply memcpy_from_same]; eauto.
Qed.

End Frame.


(** ** Reading after a write *)

Lemma splice_before (bs v : list byte) (o oq n : nat) :
  (o <= length bs)%nat -> (oq + n <= o)%nat ->
  take n (drop oq (take o bs ++ v ++ drop (o + length v) bs)) = take n (drop oq bs).
Proof.
  intros Ho Hq.
  rewrite drop_app_le by (rewrite length_take; lia).
  rewrite take_app_le by (rewrite length_drop, length_take; lia).
  rewrite <- (take_drop o bs) at 2.
  rewrite drop_app_le by (rewrite length_take; lia).
  rewrite take_app_le by (rewrite length_drop, length_take; lia).
  reflexivity.
Qed.

Lemma splice_after (bs v : list byte) (o oq : nat) :
  (o <= length bs)%nat -> (o + length v <= oq)%nat ->
  drop oq (take o bs ++ v ++ drop (o + length v) bs) = drop oq bs.
Proof.
  intros Ho Hq.
  rewrite drop_app_ge by (rewrite length_take; lia).
  rewrite length_take, Nat.min_l by lia.
  rewrite drop_app_ge by lia.
  rewrite drop_drop. f_equal. lia.
Qed.

Lemma store_then_load (p : ptr) (v : list byte) (h h' : heap) :
  store p v h = Done h' -> load p (Z.of_nat (length v)) h' = Done v.
Proof.
  unfold store, load. destruct (Z.of_nat (length v) =? 0) eqn:E.
  - intros _. apply Z.eqb_eq in E. destruct v; [reflexivity | simpl in E; lia].
  - destruct (blocks h !! base p) as [bs |] eqn:El; [| discriminate].
    destruct (_ && _) eqn:Eb; [| discriminate].
    intros [= <-]. simpl. rewrite lookup_insert_eq.
    apply andb_true_iff in Eb as [E1 E2]. apply Z.leb_le in E1, E2.
    rewrite !length_app, length_take, length_drop.
    replace ((0 <=? off p) &&
             (off p + Z.of_nat (length v) <=?
              Z.of_nat (Z.to_nat (off p) `min` length bs +
                        (length v + (length bs - (Z.to_nat (off p) + length v))))))%bool
      with true by (symmetry; apply andb_true_intro; split; apply Z.leb_le; lia).
    f_equal. rewrite Nat2Z.id.
    rewrite drop_app_length' by (rewrite length_take; lia).
    apply take_app_length.
Qed.

Lemma store_then_load_elsewhere (p q : ptr) (v : list byte) (n : Z) (h h' : heap) :
  store p v h = Done h' -> 0 <= off q -> 0 <= n ->
  base q <> base p \/ off q + n <= off p \/ off p + Z.of_nat (length v) <= off q ->
  load q n h' = load q n h.
Proof.
  intros H Hq Hn Hapart. unfold store in H.
  destruct (Z.of_nat (length v) =? 0); [injection H as <-; reflexivity |].
  destruct (blocks h !! base p) as [bs |] eqn:El; [| discriminate].
  destruct (_ && _) eqn:Eb; [| discriminate].
  injection H as <-.
  apply andb_true_iff in Eb as [E1 E2]. apply Z.leb_le in E1, E2.
  unfold load. simpl. destruct (n =? 0); [reflexivity |].
  destruct (Z.eq_dec (base q) (base p)) as [He | Hne].
  2:{ rewrite lookup_insert_ne by congruence. reflexivity. }
  destruct Hapart as [Hne | Hapart]; [congruence |].
  rewrite He, lookup_insert_eq, El.
  rewrite !length_app, length_take, length_drop.
  replace (Z.of_nat (Z.to_nat (off p) `min` length bs +
                     (length v + (length bs - (Z.to_nat (off p) + length v)))))
    with (Z.of_nat (length bs)) by lia.
  destruct (_ && _) eqn:Eq; [| reflexivity].
  apply andb_true_iff in Eq as [_ E3]. apply Z.leb_le in E3.
  f_equal. destruct Hapart as [Hbefore | Hafter].
  - apply splice_before; lia.
  - f_equal. apply splice_after; lia.
Qed.


(** ** The allocations an operation touches *)

Lemma store_blocks (p : ptr) (v : list byte) (h h' : heap) :
  store p v h = Done h' ->
  h' = h \/ (is_Some (blocks h !! base p) /\
             exists bs, blocks h' = <[base p := bs]> (blocks h)).
Proof.
  unfold store. destruct (Z.of_nat (length v) =? 0).
  - intros [= <-]. left. reflexivity.
  - destruct (blocks h !! base p) as [bs |] eqn:E; [| discriminate].
    destruct (_ && _); [| discriminate].
    intros [= <-]. right. split; [eauto |]. simpl. eauto.
Qed.

Lemma store_other_buffer (p q : ptr) (v : list byte) (h h' : heap) :
  store p v h = Done h' -> base q <> base p -> buffer h' q = buffer h q.
Proof.
  intros H Hq. apply store_blocks in H as [-> | (_ & bs & Hb)]; [reflexivity |].
  unfold buffer. rewrite Hb, lookup_insert_ne by congruence. reflexivity.
Qed.

Lemma store_others (a : Array.array_t) (p : ptr) (v : list byte) (h h' : heap) :
  heap_ok h -> store p v h = Done h' -> base p = base (Array.data a) ->
  Array.others a h' = Array.others a h.
Proof.
  intros [_ Hok] H Hp. apply store_blocks in H as [-> | (Hs & bs & Hb)]; [reflexivity |].
  unfold Array.others. destruct (is_null (Array.data a)) eqn:Hn.
  - apply is_null_base in Hn. rewrite Hp, Hn in Hs.
    apply elem_of_dom in Hs. apply Hok in Hs. lia.
  - rewrite Hb, Hp. apply delete_insert_eq.
Qed.

Lemma memmove_others (a : Array.array_t) (d s : ptr) (n : Z) (h h' : heap) :
  heap_ok h -> ARRAY_MEMMOVE d s n h = Done h' -> base d = base (Array.data a) ->
  Array.others a h' = Array.others a h /\ heap_ok h'.
Proof.
  unfold ARRAY_MEMMOVE. intros Hok H Hd.
  apply bind_Done in H as (bs & _ & H).
  split; [eapply store_others; eauto | eapply store_heap_ok; eauto].
Qed.

Lemma free_blocks (p : ptr) (h h' : heap) :
  ARRAY_FREE p h = Done h' ->
  blocks h' = (if is_null p then blocks h else delete (base p) (blocks h)) /\
  brk h' = brk h /\ mallocs h' = mallocs h.
Proof.
  unfold ARRAY_FREE. destruct (is_null p); [intros [= <-]; auto |].
  destruct (off p =? 0); [| discriminate].
  destruct (blocks h !! base p); [| discriminate].
  intros [= <-]. auto.
Qed.

Lemma free_heap_ok (p : ptr) (h h' : heap) :
  ARRAY_FREE p h = Done h' -> heap_ok h -> heap_ok h'.
Proof.
  intros H [H1 H2]. apply free_blocks in H as (Hb & Hk & _).
  split; rewrite Hk; [exact H1 |]. intros b. rewrite Hb.
  destruct (is_null p); [apply H2 |].
  rewrite dom_delete_L. intros Hd. apply elem_of_difference in Hd as [Hd _].
  apply H2. exact Hd.
Qed.

Lemma wrap_nonneg (x : Z) : 0 <= wrap x.
Proof. unfold wrap. apply Z.mod_pos_bound. reflexivity. Qed.

Lemma brk_not_live (h : heap) : heap_ok h -> blocks h !! brk h = None.
Proof.
  intros [_ Hok]. destruct (blocks h !! brk h) eqn:E; [| reflexivity].
  assert (brk h ∈ dom (blocks h)) as Hd by (apply elem_of_dom; eauto).
  apply Hok in Hd. lia.
Qed.

Section Ownership.

Variable malloc_zero_null : bool.
Variable uninit : Z -> byte.
Variable sizeT : Z.

Lemma malloc_blocks (n : Z) (h h1 : heap) (p : ptr) :
  ARRAY_MALLOC malloc_zero_null uninit n h = (p, h1) ->
  mallocs h1 = S (mallocs h) /\
  ((p = null /\ blocks h1 = blocks h) \/
   (p = Ptr (brk h) 0 /\ blocks h1 = <[brk h := fresh uninit (brk h) n]> (blocks h))).
Proof.
  unfold ARRAY_MALLOC. destruct (_ && _); intros [= <- <-]; simpl; auto.
Qed.

(** What [resize] does to the allocations: the old buffer goes, the new one
    comes at the address the allocator was about to hand out, the others
    stay as they are. *)
Lemma resize_blocks (a a' : Array.array_t) (k : Z) (h h' : heap) :
  heap_ok h ->
  (is_null (Array.data a) = false -> is_Some (blocks h !! base (Array.data a))) ->
  Array.resize malloc_zero_null uninit sizeT a k h = Done (a', h') ->
  heap_ok h' /\ mallocs h' = S (mallocs h) /\
  ((Array.data a' = null /\ blocks h' = Array.others a h) \/
   (Array.data a' = Ptr (brk h) 0 /\
    exists bs, blocks h' = <[brk h := bs]> (Array.others a h))).
Proof.
  intros Hok Hlive H. unfold Array.resize in H.
  destruct (ARRAY_MALLOC _ _ _ h) as [p h1] eqn:Em.
  pose proof (malloc_spec _ _ _ _ _ _ Hok (wrap_nonneg _) Em) as (Hok1 & _).
  apply malloc_blocks in Em as (Hma1 & Hp).
  apply bind_Done in H as (h2 & Hcp & H).
  apply bind_Done in H as (h3 & Hfr & H).
  injection H as <- <-. simpl.
  unfold ARRAY_MEMCPY in Hcp. destruct (overlap _ _ _); [discriminate |].
  apply bind_Done in Hcp as (bytes & _ & Hst).
  pose proof (store_heap_ok _ _ _ _ Hst Hok1) as Hok2.
  pose proof (store_frame _ _ _ _ Hst) as (_ & Hma2 & _).
  pose proof (free_blocks _ _ _ Hfr) as (Hb3 & _ & Hma3).
  split; [eapply free_heap_ok; eauto |]. split; [congruence |].
  fold (Array.others a h2) in Hb3.
  destruct Hp as [[-> Hb1] | [-> Hb1]].
  - left. split; [reflexivity |].
    apply store_blocks in Hst as [-> | (Hs & _)].
    + rewrite Hb3. unfold Array.others. rewrite Hb1. reflexivity.
    + simpl in Hs. apply elem_of_dom in Hs. apply (proj2 Hok1) in Hs. lia.
  - right. split; [reflexivity |].
    assert (exists bs, blocks h2 = <[brk h := bs]> (blocks h)) as [bs Hb2].
    { apply store_blocks in Hst as [-> | (_ & bs & Hb)]; [eauto |].
      simpl in Hb. rewrite Hb, Hb1, insert_insert_eq. eauto. }
    exists bs. rewrite Hb3. unfold Array.others. rewrite Hb2.
    destruct (is_null (Array.data a)) eqn:Hn; [reflexivity |].
    apply delete_insert_ne.
    specialize (Hlive eq_refl). intros He. rewrite He in Hlive.
    rewrite (brk_not_live h Hok) in Hlive. destruct Hlive as [? Hl]. discriminate Hl.
Qed.

(** An allocator that does not answer a request of zero bytes with the
    null pointer never returns it. *)
Lemma malloc_nonnull (n : Z) (h h1 : heap) (p : ptr) :
  heap_ok h -> malloc_zero_null = false ->
  ARRAY_MALLOC malloc_zero_null uninit n h = (p, h1) -> is_null p = false.
Proof.
  intros [Hpos _] Hm. unfold ARRAY_MALLOC. rewrite Hm, andb_false_r.
  intros [= <- _]. unfold is_null. simpl.
  replace (brk h =? 0) with false; [reflexivity |].
  symmetry. apply Z.eqb_neq. lia.
Qed.

Lemma resize_nonnull (a a' : Array.array_t) (k : Z) (h h' : heap) :
  heap_ok h -> malloc_zero_null = false ->
  Array.resize malloc_zero_null uninit sizeT a k h = Done (a', h') ->
  is_null (Array.data a') = false.
Proof.
  intros Hok Hm H. unfold Array.resize in H.
  destruct (ARRAY_MALLOC _ _ _ h) as [p h1] eqn:Em.
  apply bind_Done in H as (h2 & _ & H).
  apply bind_Done in H as (h3 & _ & H).
  injection H as <- _. simpl. eapply malloc_nonnull; eauto.
Qed.

Lemma copy_nonnull (a r : Array.array_t) (h h' : heap) :
  heap_ok h -> malloc_zero_null = false ->
  Array.copy malloc_zero_null uninit sizeT a h = Done (r, h') ->
  is_null (Array.data r) = false.
Proof.
  intros Hok Hm H. unfold Array.copy in H.
  destruct (ARRAY_MALLOC _ _ _ h) as [p h1] eqn:Em.
  apply bind_Done in H as (h2 & _ & H).
  injection H as <- _. simpl. eapply malloc_nonnull; eauto.
Qed.

End Ownership.


(** ** The array and the sequence it holds *)

Section ArrayProperties.

Variable malloc_zero_null : bool.
Variable uninit : Z -> byte.
Variable sizeT : Z.
Hypothesis sizeT_pos : 0 < sizeT.

Local Abbreviation rep := (Array.rep sizeT).
Local Abbreviation valid := (Array.valid sizeT).
Local Abbreviation sized := (Forall (fun v : list byte => Z.of_nat (length v) = sizeT)).

Lemma scale_le (x y : Z) : x <= y -> sizeT * x <= sizeT * y.
Proof. intros H. apply Z.mul_le_mono_nonneg_l; lia. Qed.

Lemma scale_le_inv (x y : Z) : sizeT * x <= sizeT * y -> x <= y.
Proof. intros H. apply Z.mul_le_mono_pos_l in H; lia. Qed.

Lemma scale_ge (x : Z) : 0 <= x -> x <= sizeT * x.
Proof. intros H. nia. Qed.

Lemma length_concat_sized (vs : list (list byte)) :
  sized vs -> Z.of_nat (length (concat vs)) = Z.of_nat (length vs) * sizeT.
Proof.
  induction 1 as [| v vs Hv _ IH]; [reflexivity |].
  simpl. rewrite length_app. lia.
Qed.

Lemma chunks_spec (n : nat) (bs : list byte) :
  Z.of_nat n * sizeT <= Z.of_nat (length bs) ->
  length (Array.chunks sizeT n bs) = n /\ sized (Array.chunks sizeT n bs) /\
  concat (Array.chunks sizeT n bs) ++ drop (n * Z.to_nat sizeT) bs = bs.
Proof.
  revert bs. induction n as [| n IH]; intros bs Hn.
  - simpl. rewrite drop_0. auto.
  - simpl. destruct (IH (drop (Z.to_nat sizeT) bs)) as (H1 & H2 & H3).
    { rewrite length_drop. lia. }
    split; [lia |]. split.
    + constructor; [| exact H2]. rewrite length_take. lia.
    + rewrite <- app_assoc. rewrite <- drop_drop, H3. apply take_drop.
Qed.

Lemma rep_valid (a : Array.array_t) (h : heap) vs rest :
  rep a h vs rest -> valid a h.
Proof.
  intros (Hok & Hc & Hs & Hb & Hl & Hm).
  pose proof (length_concat_sized vs Hs) as Hcs.
  rewrite length_app in Hl.
  split; [exact Hok |]. split; [| split; [exact Hm |]].
  - split; [lia |]. apply scale_le_inv. lia.
  - exists (concat vs ++ rest). rewrite length_app. auto.
Qed.

Lemma valid_rep (a : Array.array_t) (h : heap) :
  valid a h -> exists vs rest, rep a h vs rest.
Proof.
  intros (Hok & Hc & Hm & bs & Hb & Hl).
  destruct (chunks_spec (Z.to_nat (Array.count a)) bs) as (H1 & H2 & H3).
  { pose proof (scale_le (Array.count a) (Array.capacity a)). lia. }
  exists (Array.chunks sizeT (Z.to_nat (Array.count a)) bs),
         (drop (Z.to_nat (Array.count a) * Z.to_nat sizeT) bs).
  unfold Array.rep. rewrite H1, H3.
  split; [exact Hok |]. split; [lia |]. auto.
Qed.

Lemma rep_bounds (a : Array.array_t) (h : heap) vs rest :
  rep a h vs rest ->
  0 <= Array.count a <= Array.capacity a /\ Array.capacity a < size_max /\
  sizeT * Array.count a <= sizeT * Array.capacity a.
Proof.
  intros Hr. apply rep_valid in Hr as (_ & Hc & Hm & _).
  pose proof (scale_le (Array.count a) (Array.capacity a)).
  pose proof (scale_ge (Array.capacity a)). lia.
Qed.

Lemma get_spec (a : Array.array_t) (h : heap) vs rest (i : nat) (v : list byte) :
  rep a h vs rest -> vs !! i = Some v ->
  Array.get sizeT a (Z.of_nat i) h = Done v.
Proof.
  intros (Hok & Hc & Hs & Hb & Hl & Hm) Hi.
  unfold Array.get, Array.slot.
  rewrite <- (take_drop_middle vs i v Hi), concat_app in Hb. simpl in Hb.
  rewrite <- !app_assoc in Hb.
  eapply load_buf; [exact Hb | |].
  - rewrite length_concat_sized by (apply Forall_take; exact Hs).
    rewrite length_take. apply lookup_lt_Some in Hi. lia.
  - symmetry. eapply (proj1 (Forall_lookup _ _) Hs); exact Hi.
Qed.

Lemma set_spec (a : Array.array_t) (h : heap) vs rest (i : nat) (v : list byte) :
  rep a h vs rest -> (i < length vs)%nat -> Z.of_nat (length v) = sizeT ->
  exists h', Array.set sizeT a (Z.of_nat i) v h = Done h' /\
             rep a h' (<[i := v]> vs) rest /\
             mallocs h' = mallocs h /\ dom (blocks h') = dom (blocks h).
Proof.
  intros (Hok & Hc & Hs & Hb & Hl & Hm) Hi Hv.
  destruct (lookup_lt_is_Some_2 vs i Hi) as [w Hw].
  assert (Z.of_nat (length w) = sizeT) as Hlw
    by (eapply (proj1 (Forall_lookup _ _) Hs); exact Hw).
  unfold Array.set, Array.slot.
  pose proof Hb as Hb0.
  rewrite <- (take_drop_middle vs i w Hw), concat_app in Hb. simpl in Hb.
  rewrite <- !app_assoc in Hb.
  destruct (store_buf h (Array.data a) (Z.of_nat i * sizeT) v _ _ _ Hb)
    as (h' & Hst & Hb' & _).
  - rewrite length_concat_sized by (apply Forall_take; exact Hs).
    rewrite length_take. lia.
  - lia.
  - exists h'. split; [exact Hst |].
    pose proof (store_frame _ _ _ _ Hst) as (_ & Hma & Hd).
    split; [| auto].
    assert (concat (<[i := v]> vs) = concat (take i vs) ++ v ++ concat (drop (S i) vs)) as E.
    { rewrite insert_take_drop by exact Hi. rewrite concat_app. reflexivity. }
    unfold Array.rep. rewrite E, <- !app_assoc.
    split; [eapply store_heap_ok; eauto |].
    split; [rewrite length_insert; exact Hc |].
    split; [apply Forall_insert; auto |].
    split; [exact Hb' |]. split; [| exact Hm].
    rewrite Hb0 in Hb. injection Hb as Hb. rewrite Hb in Hl.
    rewrite <- Hl, !length_app. lia.
Qed.

Lemma resize_spec (a : Array.array_t) (h : heap) vs rest (k : Z) :
  rep a h vs rest -> 0 <= k -> sizeT * k < size_max ->
  exists a' h' rest',
    Array.resize malloc_zero_null uninit sizeT a k h = Done (a', h') /\
    rep a' h' (take (Z.to_nat k) vs) rest' /\
    Array.capacity a' = k /\
    Array.count a' = Z.min (Array.count a) k /\
    mallocs h' = S (mallocs h) /\
    (0 < k -> is_null (Array.data a') = false) /\
    (k = 0 -> malloc_zero_null = true -> Array.data a' = null).
Proof.
  intros Hr Hk Hkm.
  pose proof (rep_bounds _ _ _ _ Hr) as (Hc & Hcm & Hcs).
  destruct Hr as (Hok & Hlen & Hs & Hb & Hl & Hm).
  unfold Array.resize.
  set (c1 := if Array.count a >? k then k else Array.count a).
  assert (c1 = Z.min (Array.count a) k) as Hc1.
  { unfold c1. destruct (Z.gtb_spec (Array.count a) k); lia. }
  clearbody c1.
  pose proof (scale_le c1 k ltac:(lia)) as Hc1k.
  assert (0 <= sizeT * c1) as Hc1p by nia.
  rewrite (wrap_small (sizeT * k)) by nia.
  rewrite (wrap_small (sizeT * c1)) by lia.
  destruct (ARRAY_MALLOC malloc_zero_null uninit (sizeT * k) h) as [p h1] eqn:Em.
  apply malloc_spec in Em as (Hok1 & Hma1 & Hbp & Hp & Hpn & Hpz & Hpres); [| exact Hok | nia].
  pose proof (Hpres _ _ Hb) as Hb1.
  (* the elements that survive *)
  assert (Z.of_nat (length (take (Z.to_nat k) vs)) = c1) as Hlt.
  { rewrite length_take. lia. }
  assert (sized (take (Z.to_nat k) vs)) as Hst by (apply Forall_take; exact Hs).
  pose proof (length_concat_sized _ Hst) as Hlc.
  assert (concat vs ++ rest =
          concat (take (Z.to_nat k) vs) ++ (concat (drop (Z.to_nat k) vs) ++ rest)) as Hsplit.
  { rewrite app_assoc, <- concat_app, take_drop. reflexivity. }
  rewrite Hsplit in Hb1.
  (* the copy *)
  assert (overlap p (Array.data a) (sizeT * c1) = false) as Hov.
  { destruct Hp as [Hp | Hp].
    - assert (sizeT * k = 0) as Hz.
      { destruct (Z.eq_dec (sizeT * k) 0) as [|Hne]; [assumption |].
        rewrite Hpn in Hp by lia. discriminate. }
      replace (sizeT * c1) with 0 by lia. apply overlap_zero.
    - apply overlap_other. pose proof (buffer_in_heap _ _ _ Hok Hb). lia. }
  unfold ARRAY_MEMCPY. rewrite Hov.
  rewrite (load_buf0 h1 (Array.data a) (sizeT * c1) _ _ Hb1) by lia.
  simpl.
  set (fr := fresh uninit (brk h) (sizeT * k)) in *.
  assert (Z.of_nat (length fr) = sizeT * k) as Hfr by (apply length_fresh; nia).
  set (bytes := concat (take (Z.to_nat k) vs)) in *.
  rewrite <- (take_drop (length bytes) fr) in Hbp.
  destruct (store_buf0 h1 p bytes _ _ Hbp) as (h2 & Hst2 & Hbp2 & Hfr2).
  { rewrite length_take. lia. }
  rewrite Hst2. simpl.
  (* releasing the old buffer *)
  assert (buffer h2 (Array.data a) = Some (concat vs ++ rest)) as Hb2.
  { destruct (Z.eq_dec (base (Array.data a)) (base p)) as [He | Hne].
    - pose proof (buffer_in_heap _ _ _ Hok Hb) as Hrange.
      destruct Hp as [Hp | Hp]; [| lia].
      apply is_null_base in Hp.
      apply buffer_cases in Hb as [[Hz Hnil] | (Hz & Ho & Hlk)].
      + rewrite Hnil. apply buffer_is_null. exact Hz.
      + assert (base (Array.data a) ∈ dom (blocks h)) as Hd by (apply elem_of_dom; eauto).
        apply (proj2 Hok) in Hd. lia.
    - rewrite Hfr2 by exact Hne. rewrite Hsplit. exact Hb1. }
  assert (heap_ok h2) as Hok2 by (eapply store_heap_ok; eauto).
  destruct (free_spec h2 (Array.data a) _ Hok2 Hb2) as (h3 & Hf & Hok3 & Hma3 & _ & Hfr3).
  rewrite Hf. simpl.
  exists (Array.Arr p c1 k), h3, (drop (length bytes) fr).
  split; [reflexivity |].
  pose proof (store_frame _ _ _ _ Hst2) as (_ & Hma2 & _).
  assert (buffer h3 p = Some (bytes ++ drop (length bytes) fr)) as Hbp3.
  { destruct (is_null p) eqn:Hnp.
    - unfold buffer in Hbp2 |- *. rewrite Hnp in Hbp2 |- *. exact Hbp2.
    - rewrite Hfr3; [exact Hbp2 |].
      destruct (is_null (Array.data a)) eqn:Hna; [left; reflexivity | right].
      destruct Hp as [Hp | Hp]; [congruence |].
      pose proof (buffer_in_heap _ _ _ Hok Hb). lia. }
  split.
  { unfold Array.rep. simpl.
    split; [exact Hok3 |]. split; [exact Hlt |]. split; [exact Hst |].
    split; [exact Hbp3 |]. split; [| exact Hkm].
    rewrite length_app, length_drop. fold bytes. rewrite Hlt in Hlc. lia. }
  simpl. split; [reflexivity |]. split; [exact Hc1 |].
  split; [congruence |]. split.
  - intros Hk0. apply Hpn. nia.
  - intros -> Hz. apply Hpz; [lia | exact Hz].
Qed.

(** ** The array and the other allocations *)

Lemma valid_live (a : Array.array_t) (h : heap) :
  valid a h ->
  is_null (Array.data a) = false -> is_Some (blocks h !! base (Array.data a)).
Proof.
  intros (_ & _ & _ & bs & Hb & _) Hn.
  apply buffer_cases in Hb as [[Hz _] | (_ & _ & Hl)]; [congruence | eauto].
Qed.

Lemma others_data (a b : Array.array_t) (h : heap) :
  Array.data a = Array.data b -> Array.others a h = Array.others b h.
Proof. intros H. unfold Array.others. rewrite H. reflexivity. Qed.

Lemma others_brk (a : Array.array_t) (h : heap) :
  heap_ok h -> Array.others a h !! brk h = None.
Proof.
  intros Hok. pose proof (brk_not_live h Hok) as Hb. unfold Array.others.
  destruct (is_null (Array.data a)); [exact Hb |].
  apply lookup_delete_None. right. exact Hb.
Qed.

Lemma resize_others (a a' : Array.array_t) (k : Z) (h h' : heap) :
  valid a h -> Array.resize malloc_zero_null uninit sizeT a k h = Done (a', h') ->
  heap_ok h' /\ Array.others a' h' = Array.others a h /\
  (Array.data a' = null \/ Array.data a' = Ptr (brk h) 0) /\
  (is_null (Array.data a) = false ->
   blocks h' !! base (Array.data a) = None /\ Array.data a' <> Array.data a).
Proof.
  intros Hv H. pose proof Hv as (Hok & _).
  pose proof (valid_live a h Hv) as Hlive.
  apply resize_blocks in H as (Hok' & _ & Hcase); [| exact Hok | exact Hlive].
  split; [exact Hok' |].
  assert (is_null (Array.data a) = false ->
          Array.others a h !! base (Array.data a) = None /\
          base (Array.data a) <> brk h) as Hold.
  { intros Hn. split.
    - unfold Array.others. rewrite Hn. apply lookup_delete_eq.
    - intros He. destruct (Hlive Hn) as [x Hx].
      rewrite He, (brk_not_live h Hok) in Hx. discriminate. }
  destruct Hcase as [[Hd Hb] | (Hd & bs & Hb)].
  - split; [unfold Array.others at 1; rewrite Hd; exact Hb |].
    split; [left; exact Hd |]. intros Hn. destruct (Hold Hn) as [Ho _].
    split; [rewrite Hb; exact Ho |]. intros He. rewrite <- He, Hd in Hn. discriminate.
  - assert (is_null (Array.data a') = false) as Hn'.
    { rewrite Hd. unfold is_null. simpl. destruct Hok as [Hpos _].
      replace (brk h =? 0) with false; [reflexivity |].
      symmetry. apply Z.eqb_neq. lia. }
    split.
    { unfold Array.others at 1. rewrite Hn', Hd, Hb. simpl.
      rewrite delete_insert_eq. apply delete_id. apply others_brk. exact Hok. }
    split; [right; exact Hd |]. intros Hn. destruct (Hold Hn) as [Ho Hne].
    split; [rewrite Hb, lookup_insert_ne by congruence; exact Ho |].
    intros He. rewrite <- He in Hne. rewrite Hd in Hne. simpl in Hne. congruence.
Qed.



(** Where the buffer is after a possible growth: where it was, or at the
    address the allocator was about to hand out. *)
Lemma add_others (a a' : Array.array_t) (item : Array.cref) (r : Z) (h h' : heap) :
  valid a h -> Array.add malloc_zero_null uninit sizeT a item h = Done (r, a', h') ->
  Array.others a' h' = Array.others a h.
Proof.
  intros Hv H. unfold Array.add in H.
  apply bind_Done in H as ([a1 h1] & Hgrow & H).
  apply bind_Done in H as (v & _ & H).
  apply bind_Done in H as (h2 & Hst & H). injection H as _ <- <-.
  assert (heap_ok h1 /\ Array.others a1 h1 = Array.others a h) as [Hok1 Ho1].
  { destruct (_ >=? _).
    - apply resize_others in Hgrow as (? & ? & _); auto.
    - injection Hgrow as <- <-. split; [apply Hv | reflexivity]. }
  rewrite <- Ho1. rewrite <- (store_others a1 _ _ _ _ Hok1 Hst eq_refl).
  apply others_data. reflexivity.
Qed.

Lemma add_data (a a' : Array.array_t) (item : Array.cref) (r : Z) (h h' : heap) :
  valid a h -> Array.add malloc_zero_null uninit sizeT a item h = Done (r, a', h') ->
  Array.data a' = Array.data a \/ Array.data a' = null \/ Array.data a' = Ptr (brk h) 0.
Proof.
  intros Hv H. unfold Array.add in H.
  apply bind_Done in H as ([a1 h1] & Hgrow & H).
  apply bind_Done in H as (v & _ & H).
  apply bind_Done in H as (h2 & Hst & H). injection H as _ <- <-. simpl.
  destruct (_ >=? _).
  - apply resize_others in Hgrow as (_ & _ & Hd & _); auto.
  - injection Hgrow as <- <-. left. reflexivity.
Qed.


(** ** Items passed by reference *)

Lemma others_lookup (a : Array.array_t) (h : heap) (b : Z) :
  b <> base (Array.data a) -> Array.others a h !! b = blocks h !! b.
Proof.
  intros Hb. unfold Array.others.
  destruct (is_null (Array.data a)); [reflexivity |].
  apply lookup_delete_ne. congruence.
Qed.

Lemma load_others (a a' : Array.array_t) (h h' : heap) (p : ptr) (n : Z) :
  Array.others a' h' = Array.others a h ->
  base p <> base (Array.data a) -> base p <> base (Array.data a') ->
  load p n h' = load p n h.
Proof.
  intros Ho H1 H2. unfold load.
  rewrite <- (others_lookup a' h'), <- (others_lookup a h), Ho by assumption.
  reflexivity.
Qed.

Lemma load_live (p : ptr) (n : Z) (h : heap) (v : list byte) :
  0 < n -> load p n h = Done v -> is_Some (blocks h !! base p).
Proof.
  unfold load. intros Hn.
  replace (n =? 0) with false by (symmetry; apply Z.eqb_neq; lia).
  destruct (blocks h !! base p); [eauto | discriminate].
Qed.

Lemma outside_read (a : Array.array_t) (h : heap) (item : Array.cref) (v : list byte) :
  Array.outside sizeT a h item v -> Array.read sizeT item h = Done v.
Proof. destruct item as [w | p]; simpl; [intros ->; reflexivity | intros [_ H]; exact H]. Qed.

(** An item outside the array stays what it is as long as the allocations
    other than the buffer do, wherever the buffer goes. *)
Lemma outside_kept (a a' : Array.array_t) (h h' : heap) (item : Array.cref)
    (v : list byte) :
  heap_ok h -> Array.others a' h' = Array.others a h ->
  (Array.data a' = Array.data a \/ Array.data a' = null \/
   Array.data a' = Ptr (brk h) 0) ->
  Array.outside sizeT a h item v -> Array.outside sizeT a' h' item v.
Proof.
  intros Hok Ho Hd. destruct item as [w | p]; simpl; [auto |].
  intros [Hne Hl].
  assert (base p <> base (Array.data a')) as Hne'.
  { apply (load_live _ _ _ _ sizeT_pos) in Hl. apply elem_of_dom in Hl.
    apply (proj2 Hok) in Hl.
    destruct Hd as [-> | [-> | ->]]; simpl; [exact Hne | lia | lia]. }
  split; [exact Hne' |].
  rewrite (load_others a a' h h' p sizeT Ho Hne Hne'). exact Hl.
Qed.

Lemma add_keeps_outside (a a' : Array.array_t) (item x : Array.cref) (r : Z)
    (h h' : heap) (v : list byte) :
  valid a h -> Array.add malloc_zero_null uninit sizeT a item h = Done (r, a', h') ->
  Array.outside sizeT a h x v -> Array.outside sizeT a' h' x v.
Proof.
  intros Hv H. apply outside_kept; [apply Hv | eapply add_others; eauto |].
  eapply add_data; eauto.
Qed.

(** Copying an item that is outside the array into the buffer. *)
Lemma memcpy_from_outside (a : Array.array_t) (h : heap) (d : ptr) (item : Array.cref)
    (v : list byte) :
  Array.outside sizeT a h item v -> base d = base (Array.data a) ->
  Array.memcpy_from sizeT d item h = store d v h.
Proof.
  destruct item as [w | p]; simpl; [intros -> _; reflexivity |].
  intros [Hne Hl] Hd. unfold ARRAY_MEMCPY.
  rewrite overlap_other by congruence. rewrite Hl. reflexivity.
Qed.




(** Writing one more element after the last one, in a buffer that has room
    for it. *)
Lemma push_spec (a : Array.array_t) (h : heap) vs rest (item : list byte) :
  rep a h vs rest -> Array.count a + 1 <= Array.capacity a ->
  Z.of_nat (length item) = sizeT ->
  exists h' rest',
    store (Array.slot sizeT a (Array.count a)) item h = Done h' /\
    rep (Array.Arr (Array.data a) (Array.count a + 1) (Array.capacity a)) h'
        (vs ++ [item]) rest' /\
    mallocs h' = mallocs h.
Proof.
  intros (Hok & Hlen & Hs & Hb & Hl & Hm) Hroom Hitem.
  pose proof (length_concat_sized vs Hs) as Hcs.
  rewrite length_app in Hl.
  pose proof (scale_le _ _ Hroom) as Hsc.
  destruct (split3 rest sizeT 0) as (x & y & z & -> & Hx & Hy); [lia | lia | lia |].
  destruct y; [| discriminate]. simpl in Hb, Hl.
  unfold Array.slot.
  destruct (store_buf h (Array.data a) (Array.count a * sizeT) item _ _ _ Hb)
    as (h' & Hst & Hb' & _); [lia | lia |].
  exists h', z. split; [exact Hst |].
  pose proof (store_frame _ _ _ _ Hst) as (_ & Hma & _).
  split; [| exact Hma].
  unfold Array.rep. simpl.
  rewrite concat_app. simpl. rewrite app_nil_r, <- app_assoc.
  split; [eapply store_heap_ok; eauto |].
  split; [rewrite length_app; simpl; lia |].
  split; [apply Forall_app; split; [exact Hs | repeat constructor; exact Hitem] |].
  split; [exact Hb' |]. split; [| exact Hm].
  rewrite !length_app in *. lia.
Qed.

Lemma add_spec (a : Array.array_t) (h : heap) vs rest (x : Array.cref)
    (item : list byte) :
  rep a h vs rest -> Array.outside sizeT a h x item -> Z.of_nat (length item) = sizeT ->
  (Array.capacity a <= Array.count a + 1 ->
   sizeT * Z.max 4 (2 * Array.capacity a) < size_max) ->
  exists a' h' rest',
    Array.add malloc_zero_null uninit sizeT a x h = Done (Array.count a, a', h') /\
    rep a' h' (vs ++ [item]) rest' /\
    Array.count a' = Array.count a + 1 /\
    is_null (Array.data a') = false /\
    (Array.capacity a <= Array.count a + 1 ->
     Array.capacity a' = Z.max 4 (2 * Array.capacity a) /\
     mallocs h' = S (mallocs h)) /\
    (Array.count a + 1 < Array.capacity a ->
     Array.capacity a' = Array.capacity a /\ Array.data a' = Array.data a /\
     mallocs h' = mallocs h).
Proof.
  intros Hr Hout Hitem Hfit.
  pose proof (rep_bounds _ _ _ _ Hr) as (Hc & Hcm & Hcs).
  pose proof size_max_eq as Hsm.
  unfold Array.add.
  destruct (Z.le_gt_cases (Array.capacity a) (Array.count a + 1)) as [Hgrow | Hroom].
  - specialize (Hfit Hgrow).
    pose proof (scale_ge (Z.max 4 (2 * Array.capacity a)) ltac:(lia)) as Hge.
    rewrite (wrap_small (Array.count a + 1)) by lia.
    rewrite (wrap_small (Array.capacity a * 2)) by lia.
    replace (Array.count a + 1 >=? Array.capacity a) with true
      by (symmetry; apply Z.geb_le; lia).
    replace (if Array.capacity a * 2 <? 4 then 4 else Array.capacity a * 2)
      with (Z.max 4 (2 * Array.capacity a))
      by (destruct (Z.ltb_spec (Array.capacity a * 2) 4); lia).
    destruct (resize_spec a h vs rest (Z.max 4 (2 * Array.capacity a)) Hr)
      as (a1 & h1 & rest1 & Hrs & Hr1 & Hcap1 & Hcnt1 & Hma1 & Hnn1 & _); [lia | lia |].
    rewrite Hrs. simpl.
    pose proof (resize_others _ _ _ _ _ (rep_valid _ _ _ _ Hr) Hrs) as (_ & Ho1 & Hd1 & _).
    assert (Array.outside sizeT a1 h1 x item) as Hout1.
    { revert Hout. apply outside_kept; [apply Hr | exact Ho1 | right; exact Hd1]. }
    rewrite (outside_read _ _ _ _ Hout1). simpl.
    rewrite take_ge in Hr1 by (destruct Hr as (_ & Hlen & _); lia).
    assert (Array.count a1 = Array.count a) as Hcnt by lia.
    destruct (push_spec a1 h1 vs rest1 item Hr1) as (h2 & rest2 & Hst & Hr2 & Hma2);
      [lia | exact Hitem |].
    rewrite Hst. simpl.
    rewrite Hcnt in *.
    rewrite (wrap_small (Array.count a + 1)) by lia.
    rewrite (wrap_small (Array.count a + 1 - 1)) by lia.
    replace (Array.count a + 1 - 1) with (Array.count a) by lia.
    eexists _, h2, rest2. split; [reflexivity |].
    split; [exact Hr2 |]. simpl.
    split; [reflexivity |]. split; [apply Hnn1; lia |].
    split; [intros _; split; [exact Hcap1 | congruence] | lia].
  - rewrite (wrap_small (Array.count a + 1)) by lia.
    replace (Array.count a + 1 >=? Array.capacity a) with false
      by (symmetry; rewrite Z.geb_leb; apply Z.leb_gt; lia).
    simpl. rewrite (outside_read _ _ _ _ Hout). simpl.
    destruct (push_spec a h vs rest item Hr) as (h2 & rest2 & Hst & Hr2 & Hma2);
      [lia | exact Hitem |].
    rewrite Hst. simpl.
    rewrite (wrap_small (Array.count a + 1)) by lia.
    rewrite (wrap_small (Array.count a + 1 - 1)) by lia.
    replace (Array.count a + 1 - 1) with (Array.count a) by lia.
    eexists _, h2, rest2. split; [reflexivity |].
    split; [exact Hr2 |]. simpl.
    split; [reflexivity |]. split.
    + destruct Hr as (_ & _ & _ & Hb & Hl & _).
      destruct (is_null (Array.data a)) eqn:Hn; [| reflexivity].
      unfold buffer in Hb. rewrite Hn in Hb. injection Hb as Hb.
      rewrite <- Hb in Hl. simpl in Hl. nia.
    + split; [lia | auto].
Qed.

Lemma remove_spec (a : Array.array_t) (h : heap) vs rest (i : nat) :
  rep a h vs rest -> (i < length vs)%nat ->
  exists h' rest',
    Array.remove sizeT a (Z.of_nat i) h =
      Done (Array.Arr (Array.data a) (Array.count a - 1) (Array.capacity a), h') /\
    rep (Array.Arr (Array.data a) (Array.count a - 1) (Array.capacity a)) h'
        (delete i vs) rest' /\
    mallocs h' = mallocs h /\ dom (blocks h') = dom (blocks h).
Proof.
  intros Hr Hi.
  pose proof (rep_bounds _ _ _ _ Hr) as (Hc & Hcm & Hcs).
  destruct Hr as (Hok & Hlen & Hs & Hb & Hl & Hm).
  destruct (lookup_lt_is_Some_2 vs i Hi) as [w Hw].
  assert (Z.of_nat (length w) = sizeT) as Hlw
    by (eapply (proj1 (Forall_lookup _ _) Hs); exact Hw).
  pose proof (length_concat_sized _ (Forall_take _ i _ Hs)) as Hpre.
  pose proof (length_concat_sized _ (Forall_drop _ (S i) _ Hs)) as Hsuf.
  rewrite length_take, Nat.min_l in Hpre by lia.
  rewrite length_drop, Nat2Z.inj_sub, Nat2Z.inj_succ, Hlen in Hsuf by lia.
  set (pre := concat (take i vs)) in *.
  set (suf := concat (drop (S i) vs)) in *.
  assert (concat vs = pre ++ w ++ suf) as Hvs.
  { rewrite <- (take_drop_middle vs i w Hw) at 1. rewrite concat_app. reflexivity. }
  rewrite Hvs, length_app in Hl. rewrite !length_app in Hl.
  pose proof (scale_le 0 (Z.of_nat i) ltac:(lia)) as H0.
  pose proof (scale_le (Z.of_nat i + 1) (Array.count a) ltac:(lia)) as H1.
  unfold Array.remove.
  replace (Z.of_nat i <? Array.count a) with true by (symmetry; apply Z.ltb_lt; lia).
  simpl.
  rewrite (wrap_small (Z.of_nat i * sizeT)) by lia.
  rewrite (wrap_small ((Z.of_nat i + 1) * sizeT)) by lia.
  rewrite (wrap_small (Array.count a * sizeT)) by lia.
  rewrite (wrap_small (Array.count a * sizeT - (Z.of_nat i + 1) * sizeT)) by lia.
  rewrite (wrap_small (Array.count a - 1)) by lia.
  unfold ARRAY_MEMMOVE.
  assert (buffer h (Array.data a) = Some ((pre ++ w) ++ suf ++ rest)) as Hb1.
  { rewrite Hb, Hvs, <- !app_assoc. reflexivity. }
  rewrite (load_buf h (Array.data a) _ _ _ _ _ Hb1)
    by (rewrite ?length_app; lia).
  simpl.
  destruct (split3 (w ++ suf ++ rest) (Z.of_nat (length suf)) 0)
    as (x & y & z & Hsplit & Hx & Hy); [lia | lia | rewrite !length_app; lia |].
  destruct y; [| discriminate]. simpl in Hsplit.
  assert (buffer h (Array.data a) = Some (pre ++ x ++ z)) as Hb2.
  { rewrite Hb, Hvs, <- Hsplit, <- !app_assoc. reflexivity. }
  destruct (store_buf h (Array.data a) (Z.of_nat i * sizeT) suf _ _ _ Hb2)
    as (h' & Hst & Hb' & _); [lia | lia |].
  rewrite Hst. simpl.
  exists h', z. split; [reflexivity |].
  pose proof (store_frame _ _ _ _ Hst) as (_ & Hma & Hd).
  split; [| auto].
  unfold Array.rep. simpl.
  rewrite delete_take_drop, concat_app. fold pre suf. rewrite <- app_assoc.
  split; [eapply store_heap_ok; eauto |].
  split; [rewrite length_app, length_take, length_drop; lia |].
  split; [apply Forall_app; split; [apply Forall_take | apply Forall_drop]; exact Hs |].
  split; [exact Hb' |]. split; [| exact Hm].
  apply (f_equal (@length byte)) in Hsplit. rewrite !length_app in Hsplit.
  rewrite !length_app. lia.
Qed.

(** The second half of [insert]: opening a gap at [i] and filling it, in a
    buffer that has room for one more element. *)
Lemma insert_shift_spec (a : Array.array_t) (h : heap) vs rest (i : nat)
    (item : list byte) :
  rep a h vs rest -> (i <= length vs)%nat ->
  Array.count a + 1 <= Array.capacity a -> Z.of_nat (length item) = sizeT ->
  exists h' rest',
    (h2 ← ARRAY_MEMMOVE (ptr_add (Array.data a) (wrap ((Z.of_nat i + 1) * sizeT)))
                        (ptr_add (Array.data a) (wrap (Z.of_nat i * sizeT)))
                        (wrap (wrap (Array.count a * sizeT) - wrap (Z.of_nat i * sizeT))) h;
     store (ptr_add (Array.data a) (wrap (Z.of_nat i * sizeT))) item h2) = Done h' /\
    rep (Array.Arr (Array.data a) (Array.count a + 1) (Array.capacity a)) h'
        (take i vs ++ item :: drop i vs) rest' /\
    mallocs h' = mallocs h /\ dom (blocks h') = dom (blocks h).
Proof.
  intros Hr Hi Hroom Hitem.
  pose proof (rep_bounds _ _ _ _ Hr) as (Hc & Hcm & Hcs).
  destruct Hr as (Hok & Hlen & Hs & Hb & Hl & Hm).
  pose proof (length_concat_sized _ (Forall_take _ i _ Hs)) as Hpre.
  pose proof (length_concat_sized _ (Forall_drop _ i _ Hs)) as Hsuf.
  rewrite length_take, Nat.min_l in Hpre by lia.
  rewrite length_drop, Nat2Z.inj_sub, Hlen in Hsuf by lia.
  set (pre := concat (take i vs)) in *.
  set (suf := concat (drop i vs)) in *.
  assert (concat vs = pre ++ suf) as Hvs.
  { rewrite <- (take_drop i vs) at 1. apply concat_app. }
  rewrite Hvs, !length_app in Hl.
  pose proof (scale_le 0 (Z.of_nat i) ltac:(lia)) as H0.
  pose proof (scale_le (Z.of_nat i) (Array.count a) ltac:(lia)) as H1.
  pose proof (scale_le _ _ Hroom) as H2.
  rewrite (wrap_small (Z.of_nat i * sizeT)) by lia.
  rewrite (wrap_small ((Z.of_nat i + 1) * sizeT)) by lia.
  rewrite (wrap_small (Array.count a * sizeT)) by lia.
  rewrite (wrap_small (Array.count a * sizeT - Z.of_nat i * sizeT)) by lia.
  unfold ARRAY_MEMMOVE.
  assert (buffer h (Array.data a) = Some (pre ++ suf ++ rest)) as Hb1.
  { rewrite Hb, Hvs, <- !app_assoc. reflexivity. }
  rewrite (load_buf h (Array.data a) _ _ _ _ _ Hb1) by lia.
  simpl.
  destruct (split3 (suf ++ rest) sizeT (Z.of_nat (length suf)))
    as (x & y & z & Hsplit & Hx & Hy); [lia | lia | rewrite !length_app; lia |].
  assert (buffer h (Array.data a) = Some ((pre ++ x) ++ y ++ z)) as Hb2.
  { rewrite Hb1, Hsplit, <- !app_assoc. reflexivity. }
  destruct (store_buf h (Array.data a) ((Z.of_nat i + 1) * sizeT) suf _ _ _ Hb2)
    as (h2 & Hst2 & Hb2' & _); [rewrite length_app; lia | lia |].
  rewrite Hst2. simpl.
  rewrite <- app_assoc in Hb2'.
  destruct (store_buf h2 (Array.data a) (Z.of_nat i * sizeT) item _ _ _ Hb2')
    as (h3 & Hst3 & Hb3 & _); [lia | lia |].
  exists h3, z. split; [exact Hst3 |].
  pose proof (store_frame _ _ _ _ Hst2) as (_ & Hma2 & Hd2).
  pose proof (store_frame _ _ _ _ Hst3) as (_ & Hma3 & Hd3).
  split; [| split; congruence].
  unfold Array.rep. simpl.
  rewrite concat_app. simpl. fold pre suf. rewrite <- !app_assoc.
  split; [eapply store_heap_ok; [exact Hst3 |]; eapply store_heap_ok; eauto |].
  split; [rewrite length_app; simpl; rewrite length_take, length_drop; lia |].
  split.
  { apply Forall_app. split; [apply Forall_take; exact Hs |].
    constructor; [exact Hitem | apply Forall_drop; exact Hs]. }
  split; [exact Hb3 |]. split; [| exact Hm].
  apply (f_equal (@length byte)) in Hsplit. rewrite !length_app in Hsplit.
  rewrite !length_app. lia.
Qed.

Lemma insert_spec (a : Array.array_t) (h : heap) vs rest (i : nat) (x : Array.cref)
    (item : list byte) :
  rep a h vs rest -> (i <= length vs)%nat ->
  Array.outside sizeT a h x item -> Z.of_nat (length item) = sizeT ->
  (Array.capacity a <= Array.count a ->
   sizeT * Z.max 1 (2 * Array.capacity a) < size_max) ->
  exists a' h' rest',
    Array.insert malloc_zero_null uninit sizeT a (Z.of_nat i) x h = Done (a', h') /\
    rep a' h' (take i vs ++ item :: drop i vs) rest' /\
    Array.count a' = Array.count a + 1 /\
    is_null (Array.data a') = false /\
    (Array.capacity a <= Array.count a ->
     Array.capacity a' = Z.max 1 (2 * Array.capacity a) /\
     mallocs h' = S (mallocs h)) /\
    (Array.count a < Array.capacity a ->
     Array.capacity a' = Array.capacity a /\ Array.data a' = Array.data a /\
     mallocs h' = mallocs h).
Proof.
  intros Hr Hi Hout Hitem Hfit.
  pose proof (rep_bounds _ _ _ _ Hr) as (Hc & Hcm & Hcs).
  pose proof size_max_eq as Hsm.
  pose proof Hr as (_ & Hlen & _).
  unfold Array.insert.
  replace (Z.of_nat i <=? Array.count a) with true by (symmetry; apply Z.leb_le; lia).
  simpl.
  destruct (Z.le_gt_cases (Array.capacity a) (Array.count a)) as [Hgrow | Hroom].
  - specialize (Hfit Hgrow).
    pose proof (scale_ge (Z.max 1 (2 * Array.capacity a)) ltac:(lia)) as Hge.
    rewrite (wrap_small (Array.count a + 1)) by lia.
    rewrite (wrap_small (Array.capacity a * 2)) by lia.
    replace (Array.count a + 1 >? Array.capacity a) with true
      by (symmetry; apply Z.gtb_lt; lia).
    replace (if Array.capacity a <? 1 then 1 else Array.capacity a * 2)
      with (Z.max 1 (2 * Array.capacity a))
      by (destruct (Z.ltb_spec (Array.capacity a) 1); lia).
    destruct (resize_spec a h vs rest (Z.max 1 (2 * Array.capacity a)) Hr)
      as (a1 & h1 & rest1 & Hrs & Hr1 & Hcap1 & Hcnt1 & Hma1 & Hnn1 & _); [lia | lia |].
    rewrite Hrs. simpl.
    rewrite take_ge in Hr1 by lia.
    assert (Array.count a1 = Array.count a) as Hcnt by lia.
    pose proof (resize_others _ _ _ _ _ (rep_valid _ _ _ _ Hr) Hrs) as (_ & Ho1 & Hd1 & _).
    assert (Array.outside sizeT a1 h1 x item) as Hout1.
    { revert Hout. apply outside_kept; [apply Hr | exact Ho1 | right; exact Hd1]. }
    destruct (insert_shift_spec a1 h1 vs rest1 i item Hr1 Hi)
      as (h3 & rest3 & Hsh & Hr3 & Hma3 & _); [lia | exact Hitem |].
    destruct (ARRAY_MEMMOVE _ _ _ h1) as [h2 | |] eqn:Hmv; try discriminate Hsh.
    simpl in Hsh |- *.
    pose proof (memmove_others a1 _ _ _ _ _ (proj1 Hr1) Hmv eq_refl) as [Ho2 _].
    assert (Array.outside sizeT a1 h2 x item) as Hout2.
    { revert Hout1. apply outside_kept; [apply Hr1 | exact Ho2 | left; reflexivity]. }
    rewrite (memcpy_from_outside a1 h2 (ptr_add (Array.data a1) _) _ _ Hout2 eq_refl), Hsh.
    simpl.
    rewrite Hcnt in *.
    rewrite (wrap_small (Array.count a + 1)) by lia.
    eexists _, h3, rest3. split; [reflexivity |].
    split; [exact Hr3 |]. simpl.
    split; [reflexivity |]. split; [apply Hnn1; lia |].
    split; [intros _; split; [exact Hcap1 | congruence] | lia].
  - rewrite (wrap_small (Array.count a + 1)) by lia.
    replace (Array.count a + 1 >? Array.capacity a) with false
      by (symmetry; rewrite Z.gtb_ltb; apply Z.ltb_ge; lia).
    simpl.
    destruct (insert_shift_spec a h vs rest i item Hr Hi)
      as (h3 & rest3 & Hsh & Hr3 & Hma3 & _); [lia | exact Hitem |].
    destruct (ARRAY_MEMMOVE _ _ _ h) as [h2 | |] eqn:Hmv; try discriminate Hsh.
    simpl in Hsh |- *.
    pose proof (memmove_others a _ _ _ _ _ (proj1 Hr) Hmv eq_refl) as [Ho2 _].
    assert (Array.outside sizeT a h2 x item) as Hout2.
    { revert Hout. apply outside_kept; [apply Hr | exact Ho2 | left; reflexivity]. }
    rewrite (memcpy_from_outside a h2 (ptr_add (Array.data a) _) _ _ Hout2 eq_refl), Hsh.
    simpl.
    rewrite (wrap_small (Array.count a + 1)) by lia.
    eexists _, h3, rest3. split; [reflexivity |].
    split; [exact Hr3 |]. simpl.
    split; [reflexivity |]. split.
    + destruct Hr as (_ & _ & _ & Hb & Hl & _).
      destruct (is_null (Array.data a)) eqn:Hn; [| reflexivity].
      unfold buffer in Hb. rewrite Hn in Hb. injection Hb as Hb.
      rewrite <- Hb in Hl. simpl in Hl. nia.
    + split; [lia | auto].
Qed.

Lemma reverse_from_spec (a : Array.array_t) (vs : list (list byte)) rest (n : nat) :
  forall (i : nat) (ws : list (list byte)) (h : heap),
  rep a h ws rest -> Array.swapped vs i ws -> (2 * (i + n) <= length vs)%nat ->
  exists h' ws',
    Array.reverse_from sizeT a (Z.of_nat i) n h = Done h' /\
    rep a h' ws' rest /\ Array.swapped vs (i + n)%nat ws' /\
    mallocs h' = mallocs h /\ dom (blocks h') = dom (blocks h).
Proof.
  induction n as [| n IH]; intros i ws h Hr [Hlw Hsw] Hn.
  - exists h, ws. simpl. rewrite Nat.add_0_r.
    split; [reflexivity |]. split; [exact Hr |].
    split; [split; assumption | auto].
  - pose proof (rep_bounds _ _ _ _ Hr) as (Hc & Hcm & Hcs).
    pose proof Hr as (_ & Hlen & Hs & _).
    set (j := (length vs - 1 - i)%nat).
    destruct (lookup_lt_is_Some_2 ws i ltac:(lia)) as [tmp Htmp].
    destruct (lookup_lt_is_Some_2 ws j ltac:(lia)) as [v Hv].
    assert (Z.of_nat (length tmp) = sizeT) as Hltmp
      by (eapply (proj1 (Forall_lookup _ _) Hs); exact Htmp).
    assert (Z.of_nat (length v) = sizeT) as Hlv
      by (eapply (proj1 (Forall_lookup _ _) Hs); exact Hv).
    simpl.
    rewrite (wrap_small (Array.count a - Z.of_nat i)) by lia.
    rewrite (wrap_small (Array.count a - Z.of_nat i - 1)) by lia.
    replace (Array.count a - Z.of_nat i - 1) with (Z.of_nat j) by lia.
    rewrite (get_spec a h ws rest i tmp Hr Htmp). simpl.
    rewrite (get_spec a h ws rest j v Hr Hv). simpl.
    destruct (set_spec a h ws rest i v Hr ltac:(lia) Hlv)
      as (h1 & Hs1 & Hr1 & Hma1 & Hd1).
    rewrite Hs1. simpl.
    destruct (set_spec a h1 _ rest j tmp Hr1 ltac:(rewrite length_insert; lia) Hltmp)
      as (h2 & Hs2 & Hr2 & Hma2 & Hd2).
    rewrite Hs2. simpl.
    replace (Z.of_nat i + 1) with (Z.of_nat (S i)) by lia.
    destruct (IH (S i) _ h2 Hr2) as (h' & ws' & Hrun & Hr' & Hsw' & Hma' & Hd').
    + split; [rewrite !length_insert; exact Hlw |].
      intros k Hk.
      destruct (decide (k = j)) as [-> | Hkj].
      * rewrite list_lookup_insert_eq by (rewrite length_insert; lia).
        rewrite decide_True by lia.
        replace (length vs - 1 - j)%nat with i by lia.
        rewrite <- Htmp, (Hsw i) by lia. rewrite decide_False by lia. reflexivity.
      * rewrite list_lookup_insert_ne by congruence.
        destruct (decide (k = i)) as [-> | Hki].
        -- rewrite list_lookup_insert_eq by lia.
           rewrite decide_True by lia. fold j.
           rewrite <- Hv, (Hsw j) by lia. rewrite decide_False by lia. reflexivity.
        -- rewrite list_lookup_insert_ne by congruence.
           rewrite (Hsw k) by lia.
           destruct (decide (k < i \/ length vs - i <= k)%nat);
             [rewrite decide_True by lia | rewrite decide_False by lia]; reflexivity.
    + lia.
    + exists h', ws'. split; [exact Hrun |]. split; [exact Hr' |].
      replace (i + S n)%nat with (S i + n)%nat by lia.
      split; [exact Hsw' |]. split; congruence.
Qed.

Lemma reverse_spec (a : Array.array_t) (h : heap) vs rest :
  rep a h vs rest ->
  exists h', Array.reverse sizeT a h = Done h' /\ rep a h' (reverse vs) rest /\
             mallocs h' = mallocs h /\ dom (blocks h') = dom (blocks h).
Proof.
  intros Hr.
  pose proof (rep_bounds _ _ _ _ Hr) as (Hc & Hcm & Hcs).
  pose proof Hr as (_ & Hlen & _).
  set (m := Z.to_nat (Array.count a / 2)).
  assert (2 * m <= length vs /\ length vs < 2 * m + 2)%nat as Hm.
  { unfold m. pose proof (Z.div_mod (Array.count a) 2 ltac:(lia)) as Hd.
    pose proof (Z.mod_pos_bound (Array.count a) 2 ltac:(lia)) as Hp.
    assert (0 <= Array.count a / 2) by (apply Z.div_pos; lia). lia. }
  destruct (reverse_from_spec a vs rest m 0%nat vs h Hr) as (h' & ws & Hrun & Hr' & [Hl Hsw] & Hf).
  - split; [reflexivity |]. intros k Hk. rewrite decide_False by lia. reflexivity.
  - lia.
  - exists h'. split; [exact Hrun |]. split; [| exact Hf].
    replace (reverse vs) with ws; [exact Hr' |].
    apply list_eq. intros k.
    destruct (Nat.lt_ge_cases k (length vs)) as [Hk | Hk].
    + rewrite reverse_lookup by exact Hk. rewrite (Hsw k Hk). simpl.
      destruct (decide (k < m \/ length vs - m <= k)%nat).
      * f_equal. lia.
      * f_equal. lia.
    + rewrite !(proj2 (lookup_ge_None _ _)); [reflexivity | |].
      * rewrite length_reverse. exact Hk.
      * lia.
Qed.

Lemma rep_zero (h : heap) : heap_ok h -> rep Array.zero h [] [].
Proof.
  intros Hok. unfold Array.rep. simpl.
  split; [exact Hok |]. split; [reflexivity |]. split; [constructor |].
  split; [reflexivity |]. split; [lia |]. rewrite size_max_eq. lia.
Qed.

Lemma get_rep (a : Array.array_t) (h : heap) vs rest (i : Z) :
  rep a h vs rest -> 0 <= i < Array.count a ->
  exists v, vs !! Z.to_nat i = Some v /\ Array.get sizeT a i h = Done v.
Proof.
  intros Hr Hi. pose proof Hr as (_ & Hlen & _).
  destruct (lookup_lt_is_Some_2 vs (Z.to_nat i) ltac:(lia)) as [v Hv].
  exists v. split; [exact Hv |].
  rewrite <- (Z2Nat.id i) at 1 by lia. eapply get_spec; eauto.
Qed.

Lemma add_all_spec (items : list Array.cref) :
  forall (values : list (list byte)) (a : Array.array_t) (h : heap) vs rest,
  rep a h vs rest -> Forall2 (Array.outside sizeT a h) items values -> sized values ->
  Array.capacity a <= Z.max 4 (2 * Array.count a) ->
  sizeT * Z.max 4 (2 * (Array.count a + Z.of_nat (length items))) < size_max ->
  exists a' h' rest',
    Array.add_all malloc_zero_null uninit sizeT a items h = Done (a', h') /\
    rep a' h' (vs ++ values) rest'.
Proof.
  induction items as [| x items IH]; intros values a h vs rest Hr Hout Hs Hcap Hfit.
  - apply Forall2_nil_inv_l in Hout as ->.
    exists a, h, rest. rewrite app_nil_r. auto.
  - apply Forall2_cons_inv_l in Hout as (item & values' & Hx & Hout & ->).
    apply Forall_cons_1 in Hs as [Hitem Hs].
    pose proof (rep_bounds _ _ _ _ Hr) as (Hc & Hcm & Hcs).
    simpl length in Hfit.
    destruct (add_spec a h vs rest x item Hr Hx Hitem)
      as (a1 & h1 & rest1 & Hadd & Hr1 & Hcnt1 & _ & Hgrow & Hroom).
    { intros Hfull. eapply Z.le_lt_trans; [| exact Hfit]. apply scale_le. lia. }
    simpl. rewrite Hadd. simpl.
    destruct (IH values' a1 h1 (vs ++ [item]) rest1 Hr1) as (a' & h' & rest' & Hrun & Hr').
    + eapply Forall2_impl; [exact Hout |]. intros y w.
      eapply add_keeps_outside; [eapply rep_valid; exact Hr | exact Hadd].
    + exact Hs.
    + destruct (Z.le_gt_cases (Array.capacity a) (Array.count a + 1)) as [Hfull | Hfree].
      * destruct (Hgrow Hfull) as [-> _]. lia.
      * destruct (Hroom Hfree) as (-> & _ & _). lia.
    + rewrite Hcnt1. replace (Array.count a + 1 + Z.of_nat (length items))
        with (Array.count a + Z.of_nat (S (length items))) by lia. exact Hfit.
    + exists a', h', rest'. split; [exact Hrun |].
      rewrite <- app_assoc in Hr'. exact Hr'.
Qed.



(** C7: [resize(k)] with [k < count] sets [count] to [k] and keeps the
    first [k] elements; with [k >= count] it keeps all [count] elements and
    [count] itself; in both cases the capacity becomes [k]. *)
Theorem resize_keeps_elements (a : Array.array_t) (h : heap) (k : Z) :
  valid a h -> 0 <= k -> sizeT * k < size_max ->
  exists a' h',
    Array.resize malloc_zero_null uninit sizeT a k h = Done (a', h') /\
    Array.capacity a' = k /\
    (k < Array.count a ->
     Array.count a' = k /\
     forall i, 0 <= i < k ->
       exists v, Array.get sizeT a i h = Done v /\ Array.get sizeT a' i h' = Done v) /\
    (Array.count a <= k ->
     Array.count a' = Array.count a /\
     forall i, 0 <= i < Array.count a ->
       exists v, Array.get sizeT a i h = Done v /\ Array.get sizeT a' i h' = Done v).
Proof.
  intros Hv Hk Hfit.
  destruct (valid_rep a h Hv) as (vs & rest & Hr).
  pose proof Hr as (_ & Hlen & _).
  destruct (resize_spec a h vs rest k Hr Hk Hfit)
    as (a' & h' & rest' & Hrs & Hr' & Hcap & Hcnt & _).
  exists a', h'. split; [exact Hrs |]. split; [exact Hcap |].
  assert (forall i, 0 <= i < Array.count a' ->
            exists v, Array.get sizeT a i h = Done v /\
                      Array.get sizeT a' i h' = Done v) as Hsame.
  { intros i Hi.
    destruct (get_rep a h vs rest i Hr ltac:(lia)) as (v & Hv1 & Hg1).
    destruct (get_rep a' h' _ rest' i Hr' Hi) as (v' & Hv2 & Hg2).
    rewrite lookup_take_lt in Hv2 by lia.
    exists v. split; [exact Hg1 | congruence]. }
  split; intros Hcmp.
  - split; [lia |]. intros i Hi. apply Hsame. lia.
  - split; [lia |]. intros i Hi. apply Hsame. lia.
Qed.

(** C9: after one [reverse()], [get(i)] is what [get(count-1-i)] was before,
    for every [i] in [[0, count)]; after a second one every [get(i)] is
    back to its original value.  [reverse] writes to the buffer only: the
    fields [data], [count] and [capacity] are not assigned, and the same
    array is well formed in the heap it leaves. *)
Theorem reverse_mirror_and_involution (a : Array.array_t) (h : heap) :
  valid a h ->
  exists h1 h2,
    Array.reverse sizeT a h = Done h1 /\
    Array.reverse sizeT a h1 = Done h2 /\
    valid a h1 /\ valid a h2 /\
    (forall i, 0 <= i < Array.count a ->
       exists v, Array.get sizeT a (Array.count a - 1 - i) h = Done v /\
                 Array.get sizeT a i h1 = Done v) /\
    (forall i, 0 <= i < Array.count a ->
       exists v, Array.get sizeT a i h = Done v /\ Array.get sizeT a i h2 = Done v).
Proof.
  intros Hv.
  destruct (valid_rep a h Hv) as (vs & rest & Hr).
  pose proof Hr as (_ & Hlen & _).
  destruct (reverse_spec a h vs rest Hr) as (h1 & Hrev1 & Hr1 & _).
  destruct (reverse_spec a h1 _ rest Hr1) as (h2 & Hrev2 & Hr2 & _).
  rewrite reverse_involutive in Hr2.
  exists h1, h2. split; [exact Hrev1 |]. split; [exact Hrev2 |].
  split; [eapply rep_valid; exact Hr1 |]. split; [eapply rep_valid; exact Hr2 |].
  split.
  - intros i Hi.
    destruct (get_rep a h vs rest (Array.count a - 1 - i) Hr ltac:(lia)) as (v & Hv1 & Hg1).
    destruct (get_rep a h1 _ rest i Hr1 Hi) as (v' & Hv2 & Hg2).
    rewrite reverse_lookup in Hv2 by lia.
    replace (length vs - S (Z.to_nat i))%nat
      with (Z.to_nat (Array.count a - 1 - i)) in Hv2 by lia.
    exists v. split; [exact Hg1 | congruence].
  - intros i Hi.
    destruct (get_rep a h vs rest i Hr Hi) as (v & Hv1 & Hg1).
    destruct (get_rep a h2 vs rest i Hr2 Hi) as (v' & Hv2 & Hg2).
    exists v. split; [exact Hg1 | congruence].
Qed.

Lemma copy_spec (a : Array.array_t) (h : heap) vs rest :
  rep a h vs rest ->
  exists r h' rest',
    Array.copy malloc_zero_null uninit sizeT a h = Done (r, h') /\
    rep r h' vs rest' /\ rep a h' vs rest /\
    Array.count r = Array.count a /\ Array.capacity r = Array.capacity a /\
    (0 < Array.capacity a -> is_null (Array.data r) = false) /\
    (Array.capacity a = 0 -> malloc_zero_null = true -> Array.data r = null).
Proof.
  intros Hr.
  pose proof (rep_bounds _ _ _ _ Hr) as (Hc & Hcm & Hcs).
  destruct Hr as (Hok & Hlen & Hs & Hb & Hl & Hm).
  pose proof (length_concat_sized vs Hs) as Hlc. rewrite Hlen in Hlc.
  pose proof (scale_le 0 (Array.count a) ltac:(lia)) as H0.
  unfold Array.copy.
  rewrite (wrap_small (sizeT * Array.capacity a)) by lia.
  rewrite (wrap_small (sizeT * Array.count a)) by lia.
  destruct (ARRAY_MALLOC malloc_zero_null uninit (sizeT * Array.capacity a) h)
    as [p h1] eqn:Em.
  apply malloc_spec in Em as (Hok1 & Hma1 & Hbp & Hp & Hpn & Hpz & Hpres);
    [| exact Hok | lia].
  pose proof (Hpres _ _ Hb) as Hb1.
  simpl.
  assert (overlap p (Array.data a) (sizeT * Array.count a) = false) as Hov.
  { destruct Hp as [Hp | Hp].
    - assert (sizeT * Array.capacity a = 0) as Hz.
      { destruct (Z.eq_dec (sizeT * Array.capacity a) 0) as [|Hne]; [assumption |].
        rewrite Hpn in Hp by lia. discriminate. }
      replace (sizeT * Array.count a) with 0 by lia. apply overlap_zero.
    - apply overlap_other. pose proof (buffer_in_heap _ _ _ Hok Hb). lia. }
  unfold ARRAY_MEMCPY. rewrite Hov.
  rewrite (load_buf0 h1 (Array.data a) (sizeT * Array.count a) _ _ Hb1) by lia.
  simpl.
  set (fr := fresh uninit (brk h) (sizeT * Array.capacity a)) in *.
  assert (Z.of_nat (length fr) = sizeT * Array.capacity a) as Hfr
    by (apply length_fresh; lia).
  rewrite <- (take_drop (length (concat vs)) fr) in Hbp.
  destruct (store_buf0 h1 p (concat vs) _ _ Hbp) as (h2 & Hst2 & Hbp2 & Hfr2).
  { rewrite length_take. lia. }
  rewrite Hst2. simpl.
  assert (heap_ok h2) as Hok2 by (eapply store_heap_ok; eauto).
  assert (buffer h2 (Array.data a) = Some (concat vs ++ rest)) as Hb2.
  { destruct (Z.eq_dec (base (Array.data a)) (base p)) as [He | Hne].
    - pose proof (buffer_in_heap _ _ _ Hok Hb) as Hrange.
      destruct Hp as [Hp | Hp]; [| lia].
      apply is_null_base in Hp.
      apply buffer_cases in Hb as [[Hz Hnil] | (Hz & Ho & Hlk)].
      + rewrite Hnil. apply buffer_is_null. exact Hz.
      + assert (base (Array.data a) ∈ dom (blocks h)) as Hd by (apply elem_of_dom; eauto).
        apply (proj2 Hok) in Hd. lia.
    - rewrite Hfr2 by exact Hne. exact Hb1. }
  eexists _, h2, (drop (length (concat vs)) fr).
  split; [reflexivity |]. split.
  { unfold Array.rep. simpl.
    split; [exact Hok2 |]. split; [exact Hlen |]. split; [exact Hs |].
    split; [exact Hbp2 |]. split; [| exact Hm].
    rewrite length_app, length_drop. lia. }
  split.
  { unfold Array.rep. repeat (split; [assumption |]). assumption. }
  simpl. split; [reflexivity |]. split; [reflexivity |]. split.
  - intros Hk0. apply Hpn. nia.
  - intros Hz0 Hz. apply Hpz; [lia | exact Hz].
Qed.

Lemma free_array_spec (a : Array.array_t) (h : heap) :
  valid a h -> exists h', Array.free a h = Done (Array.zero, h') /\ heap_ok h'.
Proof.
  intros (Hok & _ & _ & bs & Hb & _).
  destruct (free_spec h (Array.data a) bs Hok Hb) as (h' & Hf & Hok' & _).
  exists h'. unfold Array.free. rewrite Hf. auto.
Qed.

Lemma null_iff_empty_zero : Array.null_iff_empty Array.zero.
Proof. split; reflexivity. Qed.

Lemma null_iff_empty_nonnull (a : Array.array_t) :
  is_null (Array.data a) = false -> Array.capacity a <> 0 -> Array.null_iff_empty a.
Proof.
  intros Hn Hc. split; intros H; [| contradiction].
  apply is_null_eq in H. congruence.
Qed.

Lemma null_iff_empty_rep (a : Array.array_t) (h : heap) vs rest :
  rep a h vs rest -> is_null (Array.data a) = false -> vs <> [] ->
  Array.null_iff_empty a.
Proof.
  intros Hr Hn Hvs. apply null_iff_empty_nonnull; [exact Hn |].
  pose proof (rep_bounds _ _ _ _ Hr) as (Hc & _).
  destruct Hr as (_ & Hlen & _). destruct vs; [congruence |]. simpl in Hlen. lia.
Qed.

(** C3, as the code has it: the predicate ([data] is null exactly when
    [capacity] is 0) holds in the zeroed state and, on a well-formed array
    that satisfies it, still holds after [clear], [free], [add], [insert],
    [remove], [pop] and [reverse], after [resize(k)] with [k > 0] and after
    [copy] of an array with [capacity > 0].  [resize(0)] and [copy] at
    capacity 0 store the pointer the allocator returns for a request of
    zero bytes: they preserve the predicate exactly when that pointer is
    null, and leave a non-null [data] with [capacity = 0] otherwise. *)
Theorem null_iff_empty_preserved (a : Array.array_t) (h : heap) :
  valid a h -> Array.null_iff_empty a ->
  Array.null_iff_empty Array.zero /\
  Array.null_iff_empty (Array.clear a) /\
  (exists a' h', Array.free a h = Done (a', h') /\ Array.null_iff_empty a') /\
  (forall x item,
     Array.outside sizeT a h x item -> Z.of_nat (length item) = sizeT ->
     (Array.capacity a <= Array.count a + 1 ->
      sizeT * Z.max 4 (2 * Array.capacity a) < size_max) ->
     exists r a' h',
       Array.add malloc_zero_null uninit sizeT a x h = Done (r, a', h') /\
       Array.null_iff_empty a') /\
  (forall i x item,
     0 <= i <= Array.count a ->
     Array.outside sizeT a h x item -> Z.of_nat (length item) = sizeT ->
     (Array.capacity a <= Array.count a ->
      sizeT * Z.max 1 (2 * Array.capacity a) < size_max) ->
     exists a' h',
       Array.insert malloc_zero_null uninit sizeT a i x h = Done (a', h') /\
       Array.null_iff_empty a') /\
  (forall i, 0 <= i < Array.count a ->
     exists a' h', Array.remove sizeT a i h = Done (a', h') /\
                   Array.null_iff_empty a') /\
  (0 < Array.count a ->
     exists a' h', Array.pop sizeT a h = Done (a', h') /\ Array.null_iff_empty a') /\
  (exists h', Array.reverse sizeT a h = Done h' /\ valid a h') /\
  (forall k, 0 <= k -> sizeT * k < size_max ->
     exists a' h',
       Array.resize malloc_zero_null uninit sizeT a k h = Done (a', h') /\
       (Array.null_iff_empty a' <-> 0 < k \/ malloc_zero_null = true) /\
       (k = 0 -> malloc_zero_null = false ->
        Array.capacity a' = 0 /\ Array.data a' <> null)) /\
  (exists r h',
     Array.copy malloc_zero_null uninit sizeT a h = Done (r, h') /\
     (Array.null_iff_empty r <-> 0 < Array.capacity a \/ malloc_zero_null = true) /\
     (Array.capacity a = 0 -> malloc_zero_null = false ->
      Array.capacity r = 0 /\ Array.data r <> null)).
Proof.
  intros Hv Hinv.
  destruct (valid_rep a h Hv) as (vs & rest & Hr).
  pose proof (rep_bounds _ _ _ _ Hr) as (Hc & Hcm & Hcs).
  pose proof Hr as (_ & Hlen & _).
  split; [exact null_iff_empty_zero |].
  split; [exact Hinv |].
  split.
  { destruct (free_array_spec a h Hv) as (h' & Hf & _).
    exists Array.zero, h'. split; [exact Hf | exact null_iff_empty_zero]. }
  split.
  { intros x item Hout Hitem Hfit.
    destruct (add_spec a h vs rest x item Hr Hout Hitem Hfit)
      as (a' & h' & rest' & Hadd & Hr' & _ & Hnn & _).
    exists (Array.count a), a', h'. split; [exact Hadd |].
    eapply null_iff_empty_rep; [exact Hr' | exact Hnn |].
    destruct vs; discriminate. }
  split.
  { intros i x item Hi Hout Hitem Hfit.
    destruct (insert_spec a h vs rest (Z.to_nat i) x item Hr ltac:(lia) Hout Hitem Hfit)
      as (a' & h' & rest' & Hins & Hr' & _ & Hnn & _).
    rewrite Z2Nat.id in Hins by lia.
    exists a', h'. split; [exact Hins |].
    eapply null_iff_empty_rep; [exact Hr' | exact Hnn |].
    destruct (take (Z.to_nat i) vs); discriminate. }
  assert (forall i, 0 <= i < Array.count a ->
            exists a' h', Array.remove sizeT a i h = Done (a', h') /\
                          Array.null_iff_empty a') as Hrem.
  { intros i Hi.
    destruct (remove_spec a h vs rest (Z.to_nat i) Hr ltac:(lia))
      as (h' & rest' & Hrm & _).
    rewrite Z2Nat.id in Hrm by lia.
    eexists _, h'. split; [exact Hrm | exact Hinv]. }
  split; [exact Hrem |].
  split.
  { intros Hpos. unfold Array.pop.
    rewrite (wrap_small (Array.count a - 1)) by lia. apply Hrem. lia. }
  split.
  { destruct (reverse_spec a h vs rest Hr) as (h' & Hrev & Hr' & _).
    exists h'. split; [exact Hrev | eapply rep_valid; exact Hr']. }
  split.
  { intros k Hk Hfit.
    destruct (resize_spec a h vs rest k Hr Hk Hfit)
      as (a' & h' & rest' & Hrs & _ & Hcap & _ & _ & Hnn & Hz).
    exists a', h'. split; [exact Hrs |].
    assert (k = 0 -> malloc_zero_null = false ->
            Array.capacity a' = 0 /\ Array.data a' <> null) as Hbad.
    { intros Hk0 Hm. split; [lia |]. intros He.
      pose proof (resize_nonnull _ _ _ _ _ _ _ _ (proj1 Hv) Hm Hrs) as Hn.
      rewrite He in Hn. discriminate Hn. }
    split; [| exact Hbad]. split.
    - intros Hinv'. destruct (Z.eq_dec k 0) as [Hk0 | Hne]; [| left; lia].
      destruct (Bool.bool_dec malloc_zero_null true) as [Ht | Hf]; [right; exact Ht |].
      apply Bool.not_true_is_false in Hf.
      destruct (Hbad Hk0 Hf) as [Hc0 Hd]. exfalso. apply Hd, Hinv'. exact Hc0.
    - intros Hcase. destruct (Z.eq_dec k 0) as [Hk0 | Hne].
      + destruct Hcase as [Hcase | Hcase]; [lia |].
        split; intros _; [lia | apply Hz; assumption].
      + apply null_iff_empty_nonnull; [apply Hnn; lia | lia]. }
  destruct (copy_spec a h vs rest Hr)
    as (r & h' & rest' & Hcp & _ & _ & _ & Hcap & Hnn & Hz).
  exists r, h'. split; [exact Hcp |].
  assert (Array.capacity a = 0 -> malloc_zero_null = false ->
          Array.capacity r = 0 /\ Array.data r <> null) as Hbad.
  { intros Hk0 Hm. split; [lia |]. intros He.
    pose proof (copy_nonnull _ _ _ _ _ _ _ (proj1 Hv) Hm Hcp) as Hn.
    rewrite He in Hn. discriminate Hn. }
  split; [| exact Hbad]. split.
  - intros Hinv'. destruct (Z.eq_dec (Array.capacity a) 0) as [Hk0 | Hne]; [| left; lia].
    destruct (Bool.bool_dec malloc_zero_null true) as [Ht | Hf]; [right; exact Ht |].
    apply Bool.not_true_is_false in Hf.
    destruct (Hbad Hk0 Hf) as [Hc0 Hd]. exfalso. apply Hd, Hinv'. exact Hc0.
  - intros Hcase. destruct (Z.eq_dec (Array.capacity a) 0) as [He | Hne].
    + destruct Hcase as [Hcase | Hcase]; [lia |].
      split; intros _; [lia | apply Hz; assumption].
    + apply null_iff_empty_nonnull; [apply Hnn; lia | lia].
Qed.

(** ** What each operation does to the sequence *)

Local Abbreviation holds := (Array.holds sizeT).

Lemma rep_holds (a : Array.array_t) (h : heap) vs rest :
  rep a h vs rest -> holds a h vs.
Proof.
  intros Hr. split; [destruct Hr as (_ & Hlen & _); lia |].
  intros i v Hi. eapply get_spec; eauto.
Qed.

Lemma holds_rep (a : Array.array_t) (h : heap) vs :
  valid a h -> holds a h vs -> exists rest, rep a h vs rest.
Proof.
  intros Hv [Hcnt Hget].
  destruct (valid_rep a h Hv) as (ws & rest & Hr).
  exists rest. replace vs with ws; [exact Hr |].
  pose proof Hr as (_ & Hlen & _).
  apply list_eq. intros i.
  destruct (vs !! i) as [v |] eqn:Ev.
  - pose proof (lookup_lt_Some _ _ _ Ev) as Hlt.
    destruct (lookup_lt_is_Some_2 ws i ltac:(lia)) as [w Hw].
    pose proof (get_spec a h ws rest i w Hr Hw) as H1.
    rewrite (Hget i v Ev) in H1. congruence.
  - apply lookup_ge_None in Ev. apply lookup_ge_None. lia.
Qed.


(** X2: on every well-formed non-empty array, [pop()] drops the last
    element and nothing else: [count] goes down by one and the elements
    before it are unchanged. *)
Theorem pop_drops_last (a : Array.array_t) (h : heap) vs (x : list byte) :
  valid a h -> holds a h (vs ++ [x]) ->
  exists a' h',
    Array.pop sizeT a h = Done (a', h') /\
    valid a' h' /\ holds a' h' vs.
Proof.
  intros Hv Hh.
  destruct (holds_rep a h _ Hv Hh) as (rest & Hr).
  pose proof Hr as (_ & Hlen & _).
  rewrite length_app in Hlen. simpl in Hlen.
  pose proof (rep_bounds _ _ _ _ Hr) as (Hc & Hcm & _).
  destruct (remove_spec a h _ rest (length vs) Hr) as (h' & rest' & Hrm & Hr' & _).
  { rewrite length_app. simpl. lia. }
  unfold Array.pop. rewrite (wrap_small (Array.count a - 1)) by lia.
  replace (Array.count a - 1) with (Z.of_nat (length vs)) by lia.
  rewrite Hrm. eexists _, h'. split; [reflexivity |].
  replace (delete (length vs) (vs ++ [x])) with vs in Hr'.
  2:{ rewrite delete_middle, app_nil_r. reflexivity. }
  split; [eapply rep_valid; exact Hr' | eapply rep_holds; exact Hr'].
Qed.

(** X3: [add(x)] of an item that is not an element of the array, followed
    by [pop()], gives back the sequence the array held, with the same
    [count]; the buffer keeps the capacity [add] grew it to. *)
Theorem add_then_pop_restores (a : Array.array_t) (h : heap) vs (x : Array.cref)
    (item : list byte) :
  valid a h -> holds a h vs ->
  Array.outside sizeT a h x item -> Z.of_nat (length item) = sizeT ->
  (Array.capacity a <= Array.count a + 1 ->
   sizeT * Z.max 4 (2 * Array.capacity a) < size_max) ->
  exists r a1 h1 a2 h2,
    Array.add malloc_zero_null uninit sizeT a x h = Done (r, a1, h1) /\
    Array.pop sizeT a1 h1 = Done (a2, h2) /\
    Array.count a2 = Array.count a /\ holds a2 h2 vs /\
    Array.capacity a2 = Array.capacity a1 /\ Array.data a2 = Array.data a1.
Proof.
  intros Hv Hh Hout Hitem Hfit.
  destruct (holds_rep a h vs Hv Hh) as (rest & Hr).
  pose proof Hr as (_ & Hlen & _).
  destruct (add_spec a h vs rest x item Hr Hout Hitem Hfit)
    as (a1 & h1 & rest1 & Hadd & Hr1 & Hcnt1 & _).
  pose proof (rep_bounds _ _ _ _ Hr1) as (Hc1 & Hcm1 & _).
  destruct (remove_spec a1 h1 _ rest1 (length vs) Hr1) as (h2 & rest2 & Hrm & Hr2 & _).
  { rewrite length_app. simpl. lia. }
  rewrite delete_middle, app_nil_r in Hr2.
  eexists (Array.count a), a1, h1, _, h2.
  split; [exact Hadd |].
  split.
  { unfold Array.pop. rewrite (wrap_small (Array.count a1 - 1)) by lia.
    replace (Array.count a1 - 1) with (Z.of_nat (length vs)) by lia. exact Hrm. }
  simpl. split; [lia |]. split; [eapply rep_holds; exact Hr2 |]. auto.
Qed.


(** X5: on every well-formed array and for every [i < count],
    [remove(i)] takes the element at [i] out, keeps the elements before it
    and moves those after it one index down. *)
Theorem remove_shifts_down (a : Array.array_t) (h : heap) vs (i : nat) :
  valid a h -> holds a h vs -> (i < length vs)%nat ->
  exists a' h',
    Array.remove sizeT a (Z.of_nat i) h = Done (a', h') /\
    valid a' h' /\ holds a' h' (take i vs ++ drop (S i) vs).
Proof.
  intros Hv Hh Hi.
  destruct (holds_rep a h vs Hv Hh) as (rest & Hr).
  destruct (remove_spec a h vs rest i Hr Hi) as (h' & rest' & Hrm & Hr' & _).
  rewrite delete_take_drop in Hr'.
  eexists _, h'. split; [exact Hrm |].
  split; [eapply rep_valid; exact Hr' | eapply rep_holds; exact Hr'].
Qed.

(** X6: on every well-formed array and for every [i < count], after
    [set(i, v)] [get(i)] returns [v] and every other element is unchanged;
    [set] touches neither [count] nor the buffer's size. *)
Theorem set_then_get (a : Array.array_t) (h : heap) vs (i : nat) (v : list byte) :
  valid a h -> holds a h vs -> (i < length vs)%nat ->
  Z.of_nat (length v) = sizeT ->
  exists h',
    Array.set sizeT a (Z.of_nat i) v h = Done h' /\
    valid a h' /\ holds a h' (<[i := v]> vs) /\
    Array.get sizeT a (Z.of_nat i) h' = Done v.
Proof.
  intros Hv Hh Hi Hlv.
  destruct (holds_rep a h vs Hv Hh) as (rest & Hr).
  destruct (set_spec a h vs rest i v Hr Hi Hlv) as (h' & Hset & Hr' & _).
  exists h'. split; [exact Hset |].
  split; [eapply rep_valid; exact Hr' |]. split; [eapply rep_holds; exact Hr' |].
  eapply get_spec; [exact Hr' |]. apply list_lookup_insert_eq. exact Hi.
Qed.




(** X9: [add] never leaves the array full: after it [count] is strictly
    below [capacity], so the next [add] that finds [count + 1 = capacity]
    grows although one slot is free. *)
Theorem add_leaves_a_spare_slot (a : Array.array_t) (h : heap) (x : Array.cref)
    (item : list byte) :
  valid a h -> Array.outside sizeT a h x item -> Z.of_nat (length item) = sizeT ->
  (Array.capacity a <= Array.count a + 1 ->
   sizeT * Z.max 4 (2 * Array.capacity a) < size_max) ->
  exists r a' h',
    Array.add malloc_zero_null uninit sizeT a x h = Done (r, a', h') /\
    Array.count a' < Array.capacity a'.
Proof.
  intros Hv Hout Hitem Hfit.
  destruct (valid_rep a h Hv) as (vs & rest & Hr).
  pose proof (rep_bounds _ _ _ _ Hr) as (Hc & _).
  destruct (add_spec a h vs rest x item Hr Hout Hitem Hfit)
    as (a' & h' & rest' & Hadd & _ & Hcnt & _ & Hgrow & Hroom).
  exists (Array.count a), a', h'. split; [exact Hadd |].
  destruct (Z.le_gt_cases (Array.capacity a) (Array.count a + 1)) as [Hfull | Hfree].
  - destruct (Hgrow Hfull) as [-> _]. lia.
  - destruct (Hroom Hfree) as (-> & _ & _). lia.
Qed.

Lemma add_all_capacity (items : list Array.cref) :
  forall (values : list (list byte)) (a : Array.array_t) (h : heap) vs rest,
  rep a h vs rest -> Forall2 (Array.outside sizeT a h) items values -> sized values ->
  Array.capacity a <= Z.max 4 (2 * Array.count a) ->
  sizeT * Z.max 4 (2 * (Array.count a + Z.of_nat (length items))) < size_max ->
  exists a' h',
    Array.add_all malloc_zero_null uninit sizeT a items h = Done (a', h') /\
    Array.capacity a' <= Z.max 4 (2 * Array.count a') /\
    (items <> [] -> Array.count a' < Array.capacity a') /\
    (mallocs h' <= mallocs h + length items)%nat.
Proof.
  induction items as [| x items IH]; intros values a h vs rest Hr Hout Hs Hcap Hfit.
  - exists a, h. split; [reflexivity |]. split; [exact Hcap |].
    split; [congruence | lia].
  - apply Forall2_cons_inv_l in Hout as (item & values' & Hx & Hout & ->).
    apply Forall_cons_1 in Hs as [Hitem Hs].
    pose proof (rep_bounds _ _ _ _ Hr) as (Hc & Hcm & Hcs).
    simpl length in Hfit.
    destruct (add_spec a h vs rest x item Hr Hx Hitem)
      as (a1 & h1 & rest1 & Hadd & Hr1 & Hcnt1 & _ & Hgrow & Hroom).
    { intros Hfull. eapply Z.le_lt_trans; [| exact Hfit]. apply scale_le. lia. }
    simpl. rewrite Hadd. simpl.
    assert (Array.capacity a1 <= Z.max 4 (2 * Array.count a1) /\
            Array.count a1 < Array.capacity a1 /\
            (mallocs h1 <= S (mallocs h))%nat) as (Hcap1 & Hlt1 & Hm1).
    { destruct (Z.le_gt_cases (Array.capacity a) (Array.count a + 1)) as [Hfull | Hfree].
      - destruct (Hgrow Hfull) as [-> ->]. lia.
      - destruct (Hroom Hfree) as (-> & _ & ->). lia. }
    destruct (IH values' a1 h1 (vs ++ [item]) rest1 Hr1) as (a' & h' & Hrun & Hcap' & Hlt' & Hm').
    { eapply Forall2_impl; [exact Hout |]. intros y w.
      eapply add_keeps_outside; [eapply rep_valid; exact Hr | exact Hadd]. }
    { exact Hs. }
    { exact Hcap1. }
    { rewrite Hcnt1. replace (Array.count a + 1 + Z.of_nat (length items))
        with (Array.count a + Z.of_nat (S (length items))) by lia. exact Hfit. }
    exists a', h'. split; [exact Hrun |]. split; [exact Hcap' |].
    split; [| simpl; lia].
    intros _. destruct items as [| item' items'].
    + simpl in Hrun. injection Hrun as <- <-. exact Hlt1.
    + apply Hlt'. discriminate.
Qed.

(** X10: after [n >= 1] consecutive [add] calls on the empty array the
    capacity is above [n] and at most [max(4, 2n)]: the buffer is never more
    than twice as large as needed, beyond the initial four slots. *)
Theorem add_all_capacity_bound (items : list Array.cref) (values : list (list byte))
    (h : heap) :
  heap_ok h -> Forall2 (Array.outside sizeT Array.zero h) items values ->
  sized values -> items <> [] ->
  sizeT * Z.max 4 (2 * Z.of_nat (length items)) < size_max ->
  exists a h',
    Array.add_all malloc_zero_null uninit sizeT Array.zero items h = Done (a, h') /\
    Z.of_nat (length items) < Array.capacity a <= Z.max 4 (2 * Z.of_nat (length items)).
Proof.
  intros Hok Hout Hs Hne Hfit.
  destruct (add_all_spec items values Array.zero h [] [] (rep_zero h Hok) Hout Hs)
    as (a & h' & rest & Hrun & Hr); [simpl; lia | simpl; exact Hfit |].
  destruct (add_all_capacity items values Array.zero h [] [] (rep_zero h Hok) Hout Hs)
    as (a2 & h2 & Hrun2 & Hcap & Hlt & _); [simpl; lia | simpl; exact Hfit |].
  rewrite Hrun in Hrun2. injection Hrun2 as <- <-.
  exists a, h'. split; [exact Hrun |].
  destruct Hr as (_ & Hlen & _). simpl in Hlen. specialize (Hlt Hne).
  apply Forall2_length in Hout. lia.
Qed.

Lemma add_in_place (a a' : Array.array_t) (item : Array.cref) (r : Z) (h h' : heap) :
  (wrap (Array.count a + 1) >=? Array.capacity a) = false ->
  Array.add malloc_zero_null uninit sizeT a item h = Done (r, a', h') ->
  Array.data a' = Array.data a /\ Array.capacity a' = Array.capacity a /\
  same_allocations h h'.
Proof.
  intros Hno H. unfold Array.add in H. rewrite Hno in H.
  simpl in H. apply bind_Done in H as (v & _ & H).
  apply bind_Done in H as (h2 & Hst & H).
  injection H as _ <- <-. simpl.
  split; [reflexivity |]. split; [reflexivity |]. eapply store_same; exact Hst.
Qed.

(** X11: [clear()] followed by [add] on a buffer of at least two slots
    reuses the buffer: no allocation, the same [data] and [capacity], and
    the array holds just the new element. *)
Theorem clear_then_add_reuses_buffer (a : Array.array_t) (h : heap) (x : Array.cref)
    (item : list byte) :
  valid a h -> 2 <= Array.capacity a ->
  Array.outside sizeT a h x item -> Z.of_nat (length item) = sizeT ->
  exists a' h',
    Array.add malloc_zero_null uninit sizeT (Array.clear a) x h = Done (0, a', h') /\
    valid a' h' /\ holds a' h' [item] /\
    Array.data a' = Array.data a /\ Array.capacity a' = Array.capacity a /\
    same_allocations h h'.
Proof.
  intros Hv Hcap Hout Hitem.
  assert (valid (Array.clear a) h) as Hvc.
  { destruct Hv as (Hok & Hc & Hm & Hb). split; [exact Hok |].
    split; [simpl; lia |]. split; [exact Hm | exact Hb]. }
  assert (holds (Array.clear a) h []) as Hhc.
  { split; [reflexivity |]. intros i v Hi. discriminate Hi. }
  destruct (holds_rep _ h [] Hvc Hhc) as (rest & Hr).
  destruct (add_spec (Array.clear a) h [] rest x item Hr Hout Hitem)
    as (a' & h' & rest' & Hadd & Hr' & _); [simpl; lia |].
  exists a', h'. split; [exact Hadd |].
  split; [eapply rep_valid; exact Hr' |]. split; [eapply rep_holds; exact Hr' |].
  apply (add_in_place (Array.clear a) a' x 0 h h'); [| exact Hadd].
  simpl. rewrite wrap_small by (rewrite size_max_eq; lia).
  rewrite Z.geb_leb. apply Z.leb_gt. lia.
Qed.

(** X22: the growth policies.  On a well-formed array [add] grows, to
    [max(4, 2 * capacity)], exactly when [capacity <= count + 1], and
    [insert] grows, to [max(1, 2 * capacity)], exactly when the array is
    full; each growth is one call to the allocator, and without growth
    [data] and [capacity] stay and the allocator is not called. *)
Theorem growth_policy (a : Array.array_t) (h : heap) (i : Z) (x : Array.cref)
    (item : list byte) :
  valid a h -> 0 <= i <= Array.count a ->
  Array.outside sizeT a h x item -> Z.of_nat (length item) = sizeT ->
  sizeT * Z.max 4 (2 * Array.capacity a) < size_max ->
  (exists r a' h',
     Array.add malloc_zero_null uninit sizeT a x h = Done (r, a', h') /\
     if Array.capacity a <=? Array.count a + 1
     then Array.capacity a' = Z.max 4 (2 * Array.capacity a) /\
          mallocs h' = S (mallocs h)
     else Array.capacity a' = Array.capacity a /\ Array.data a' = Array.data a /\
          mallocs h' = mallocs h) /\
  (exists a' h',
     Array.insert malloc_zero_null uninit sizeT a i x h = Done (a', h') /\
     if Array.capacity a <=? Array.count a
     then Array.capacity a' = Z.max 1 (2 * Array.capacity a) /\
          mallocs h' = S (mallocs h)
     else Array.capacity a' = Array.capacity a /\ Array.data a' = Array.data a /\
          mallocs h' = mallocs h).
Proof.
  intros Hv Hi Hout Hitem Hfit.
  destruct (valid_rep a h Hv) as (vs & rest & Hr).
  pose proof Hr as (_ & Hlen & _).
  split.
  - destruct (add_spec a h vs rest x item Hr Hout Hitem (fun _ => Hfit))
      as (a' & h' & rest' & Hadd & _ & _ & _ & Hgrow & Hroom).
    exists (Array.count a), a', h'. split; [exact Hadd |].
    destruct (Z.leb_spec (Array.capacity a) (Array.count a + 1)); auto.
  - destruct (insert_spec a h vs rest (Z.to_nat i) x item Hr ltac:(lia) Hout Hitem)
      as (a' & h' & rest' & Hins & _ & _ & _ & Hgrow & Hroom).
    { intros _. eapply Z.le_lt_trans; [| exact Hfit]. apply scale_le. lia. }
    rewrite Z2Nat.id in Hins by lia.
    exists a', h'. split; [exact Hins |].
    destruct (Z.leb_spec (Array.capacity a) (Array.count a)); auto.
Qed.



Lemma get_released (a : Array.array_t) (h : heap) (i : Z) :
  blocks h !! base (Array.data a) = None -> Array.get sizeT a i h = Undefined.
Proof.
  intros Hb. unfold Array.get, load.
  replace (sizeT =? 0) with false by (symmetry; apply Z.eqb_neq; lia).
  simpl. rewrite Hb. reflexivity.
Qed.

Lemma free_others (a : Array.array_t) (h : heap) :
  valid a h ->
  exists h', Array.free a h = Done (Array.zero, h') /\ blocks h' = Array.others a h.
Proof.
  intros Hv.
  destruct (free_array_spec a h Hv) as (h' & Hf & _).
  exists h'. split; [exact Hf |].
  unfold Array.free in Hf. apply bind_Done in Hf as (h1 & Hfr & Hf).
  injection Hf as <-. apply free_blocks in Hfr as (Hb & _). exact Hb.
Qed.

(** X13: on every well-formed array [free()] returns, leaves the zeroed
    array, and releases the buffer and nothing else.  A second [free()] is
    then a no-op, and a copy of the old struct kept by value points at
    released memory: every [get] through it is an invalid access. *)
Theorem free_releases_the_buffer (a : Array.array_t) (h : heap) :
  valid a h ->
  exists h',
    Array.free a h = Done (Array.zero, h') /\
    heap_ok h' /\ blocks h' = Array.others a h /\
    Array.free Array.zero h' = Done (Array.zero, h') /\
    (is_null (Array.data a) = false ->
     forall i, Array.get sizeT a i h' = Undefined).
Proof.
  intros Hv.
  destruct (free_array_spec a h Hv) as (h' & Hf & Hok').
  exists h'. split; [exact Hf |]. split; [exact Hok' |].
  unfold Array.free in Hf. apply bind_Done in Hf as (h1 & Hfr & Hf).
  injection Hf as <-. apply free_blocks in Hfr as (Hb & _).
  split; [exact Hb |]. split; [reflexivity |].
  intros Hn i. apply get_released. rewrite Hb, Hn. apply lookup_delete_eq.
Qed.

(** X14: [resize] always moves the buffer, even to the same or a smaller
    capacity: on a well-formed array with a buffer, the new [data] differs
    from the old one and the old buffer is released, so that every [get]
    through a copy of the old struct is an invalid access. *)
Theorem resize_moves_the_buffer (a : Array.array_t) (h : heap) (k : Z) :
  valid a h -> is_null (Array.data a) = false -> 0 <= k -> sizeT * k < size_max ->
  exists a' h',
    Array.resize malloc_zero_null uninit sizeT a k h = Done (a', h') /\
    valid a' h' /\ Array.data a' <> Array.data a /\
    forall i, Array.get sizeT a i h' = Undefined.
Proof.
  intros Hv Hn Hk Hfit.
  destruct (valid_rep a h Hv) as (vs & rest & Hr).
  destruct (resize_spec a h vs rest k Hr Hk Hfit) as (a' & h' & rest' & Hrs & Hr' & _).
  exists a', h'. split; [exact Hrs |]. split; [eapply rep_valid; exact Hr' |].
  apply resize_others in Hrs as (_ & _ & _ & Hold); [| exact Hv].
  destruct (Hold Hn) as [Hrel Hne]. split; [exact Hne |].
  intros i. apply get_released. exact Hrel.
Qed.

(** ** Items that are elements of the array *)

(** X23: [add] reads its item after the growth test.  When the array does
    not grow, the item may be one of its own elements: [add(get(i))]
    appends a copy of the element at [i], in place. *)
Theorem add_of_own_element_in_place (a : Array.array_t) (h : heap) vs (i : nat)
    (v : list byte) :
  valid a h -> holds a h vs -> vs !! i = Some v ->
  Array.count a + 1 < Array.capacity a ->
  exists a' h',
    Array.add malloc_zero_null uninit sizeT a
      (Array.InHeap (Array.slot sizeT a (Z.of_nat i))) h = Done (Array.count a, a', h') /\
    valid a' h' /\ holds a' h' (vs ++ [v]) /\
    Array.data a' = Array.data a /\ Array.capacity a' = Array.capacity a.
Proof.
  intros Hv Hh Hi Hroom.
  destruct (holds_rep a h vs Hv Hh) as (rest & Hr).
  pose proof (rep_bounds _ _ _ _ Hr) as (Hc & Hcm & Hcs).
  pose proof size_max_eq as Hsm.
  assert (Z.of_nat (length v) = sizeT) as Hlv.
  { destruct Hr as (_ & _ & Hs & _). eapply (proj1 (Forall_lookup _ _) Hs); exact Hi. }
  pose proof (get_spec a h vs rest i v Hr Hi) as Hget. unfold Array.get in Hget.
  destruct (push_spec a h vs rest v Hr) as (h2 & rest2 & Hst & Hr2 & _);
    [lia | exact Hlv |].
  unfold Array.add, Array.read.
  rewrite (wrap_small (Array.count a + 1)) by lia.
  replace (Array.count a + 1 >=? Array.capacity a) with false
    by (symmetry; rewrite Z.geb_leb; apply Z.leb_gt; lia).
  cbn [mbind outcome_bind]. rewrite Hget. cbn [mbind outcome_bind].
  rewrite Hst. cbn [mbind outcome_bind Array.count Array.data Array.capacity].
  rewrite (wrap_small (Array.count a + 1)) by lia.
  rewrite (wrap_small (Array.count a + 1 - 1)) by lia.
  replace (Array.count a + 1 - 1) with (Array.count a) by lia.
  eexists _, h2. split; [reflexivity |].
  split; [eapply rep_valid; exact Hr2 |]. split; [eapply rep_holds; exact Hr2 |].
  split; reflexivity.
Qed.

(** X24: when the array grows, [resize] has released the old buffer by the
    time [add] reads its item, so a reference to any slot of the array
    dangles: [add(get(i))] on an array that has a buffer and meets the
    growth test reads released memory, whatever [i] is. *)
Theorem add_of_own_element_dangles_on_growth (a : Array.array_t) (h : heap) (i : Z) :
  valid a h -> is_null (Array.data a) = false ->
  Array.capacity a <= Array.count a + 1 ->
  sizeT * Z.max 4 (2 * Array.capacity a) < size_max ->
  Array.add malloc_zero_null uninit sizeT a (Array.InHeap (Array.slot sizeT a i)) h
    = Undefined.
Proof.
  intros Hv Hn Hgrow Hfit.
  destruct (valid_rep a h Hv) as (vs & rest & Hr).
  pose proof (rep_bounds _ _ _ _ Hr) as (Hc & Hcm & Hcs).
  pose proof size_max_eq as Hsm.
  pose proof (scale_ge (Z.max 4 (2 * Array.capacity a)) ltac:(lia)) as Hge.
  unfold Array.add, Array.read.
  rewrite (wrap_small (Array.count a + 1)) by lia.
  rewrite (wrap_small (Array.capacity a * 2)) by lia.
  replace (Array.count a + 1 >=? Array.capacity a) with true
    by (symmetry; apply Z.geb_le; lia).
  replace (if Array.capacity a * 2 <? 4 then 4 else Array.capacity a * 2)
    with (Z.max 4 (2 * Array.capacity a))
    by (destruct (Z.ltb_spec (Array.capacity a * 2) 4); lia).
  destruct (resize_spec a h vs rest (Z.max 4 (2 * Array.capacity a)) Hr)
    as (a1 & h1 & rest1 & Hrs & _); [lia | lia |].
  rewrite Hrs. cbn [mbind outcome_bind].
  pose proof (resize_others _ _ _ _ _ Hv Hrs) as (_ & _ & _ & Hold).
  destruct (Hold Hn) as [Hrel _].
  pose proof (get_released a h1 i Hrel) as Hg. unfold Array.get in Hg.
  rewrite Hg. reflexivity.
Qed.

(** The first half of [insert]: the memmove leaves the elements from [i] on
    one slot up, and in slot [i] the bytes it held. *)
Lemma insert_gap_spec (a : Array.array_t) (h : heap) vs rest (i : nat) :
  rep a h vs rest -> (i <= length vs)%nat ->
  Array.count a + 1 <= Array.capacity a ->
  exists h2 x z,
    ARRAY_MEMMOVE (ptr_add (Array.data a) (wrap ((Z.of_nat i + 1) * sizeT)))
                  (ptr_add (Array.data a) (wrap (Z.of_nat i * sizeT)))
                  (wrap (wrap (Array.count a * sizeT) - wrap (Z.of_nat i * sizeT))) h
      = Done h2 /\
    rep (Array.Arr (Array.data a) (Array.count a + 1) (Array.capacity a)) h2
        (take i vs ++ x :: drop i vs) z.
Proof.
  intros Hr Hi Hroom.
  pose proof (rep_bounds _ _ _ _ Hr) as (Hc & Hcm & Hcs).
  destruct Hr as (Hok & Hlen & Hs & Hb & Hl & Hm).
  pose proof (length_concat_sized _ (Forall_take _ i _ Hs)) as Hpre.
  pose proof (length_concat_sized _ (Forall_drop _ i _ Hs)) as Hsuf.
  rewrite length_take, Nat.min_l in Hpre by lia.
  rewrite length_drop, Nat2Z.inj_sub, Hlen in Hsuf by lia.
  set (pre := concat (take i vs)) in *.
  set (suf := concat (drop i vs)) in *.
  assert (concat vs = pre ++ suf) as Hvs.
  { rewrite <- (take_drop i vs) at 1. apply concat_app. }
  rewrite Hvs, !length_app in Hl.
  pose proof (scale_le 0 (Z.of_nat i) ltac:(lia)) as H0.
  pose proof (scale_le (Z.of_nat i) (Array.count a) ltac:(lia)) as H1.
  pose proof (scale_le _ _ Hroom) as H2.
  rewrite (wrap_small (Z.of_nat i * sizeT)) by lia.
  rewrite (wrap_small ((Z.of_nat i + 1) * sizeT)) by lia.
  rewrite (wrap_small (Array.count a * sizeT)) by lia.
  rewrite (wrap_small (Array.count a * sizeT - Z.of_nat i * sizeT)) by lia.
  unfold ARRAY_MEMMOVE.
  assert (buffer h (Array.data a) = Some (pre ++ suf ++ rest)) as Hb1.
  { rewrite Hb, Hvs, <- !app_assoc. reflexivity. }
  rewrite (load_buf h (Array.data a) _ _ _ _ _ Hb1) by lia.
  simpl.
  destruct (split3 (suf ++ rest) sizeT (Z.of_nat (length suf)))
    as (x & y & z & Hsplit & Hx & Hy); [lia | lia | rewrite !length_app; lia |].
  assert (buffer h (Array.data a) = Some ((pre ++ x) ++ y ++ z)) as Hb2.
  { rewrite Hb1, Hsplit, <- !app_assoc. reflexivity. }
  destruct (store_buf h (Array.data a) ((Z.of_nat i + 1) * sizeT) suf _ _ _ Hb2)
    as (h2 & Hst2 & Hb2' & _); [rewrite length_app; lia | lia |].
  exists h2, x, z. split; [exact Hst2 |].
  unfold Array.rep. simpl.
  rewrite concat_app. simpl. fold pre suf. rewrite <- !app_assoc.
  rewrite <- app_assoc in Hb2'.
  split; [eapply store_heap_ok; eauto |].
  split; [rewrite length_app; simpl; rewrite length_take, length_drop; lia |].
  split.
  { apply Forall_app. split; [apply Forall_take; exact Hs |].
    constructor; [exact Hx | apply Forall_drop; exact Hs]. }
  split; [exact Hb2' |]. split; [| exact Hm].
  apply (f_equal (@length byte)) in Hsplit. rewrite !length_app in Hsplit.
  rewrite !length_app. lia.
Qed.

(** X25: [insert] copies its item from its address after it has shifted
    the elements.  When the item is the element [j] of the array itself and
    the array does not grow, what [insert(i, get(j))] inserts is what slot
    [j] holds after the shift: the element [j] if [j < i], but the element
    [j - 1] if [j > i]; and with [j = i] source and destination of the
    memcpy are the same range. *)
Theorem insert_of_own_element_reads_after_the_shift (a : Array.array_t) (h : heap) vs
    (i j : nat) :
  valid a h -> holds a h vs -> (i <= length vs)%nat -> (j < length vs)%nat ->
  Array.count a < Array.capacity a ->
  (j <> i ->
   exists a' h' w,
     vs !! (if decide (j < i)%nat then j else (j - 1)%nat) = Some w /\
     Array.insert malloc_zero_null uninit sizeT a (Z.of_nat i)
       (Array.InHeap (Array.slot sizeT a (Z.of_nat j))) h = Done (a', h') /\
     valid a' h' /\ holds a' h' (take i vs ++ w :: drop i vs)) /\
  (j = i ->
   Array.insert malloc_zero_null uninit sizeT a (Z.of_nat i)
     (Array.InHeap (Array.slot sizeT a (Z.of_nat j))) h = Undefined).
Proof.
  intros Hv Hh Hi Hj Hroom.
  destruct (holds_rep a h vs Hv Hh) as (rest & Hr).
  pose proof (rep_bounds _ _ _ _ Hr) as (Hc & Hcm & Hcs).
  pose proof size_max_eq as Hsm.
  pose proof Hr as (_ & Hlen & _ & _ & _ & Hm).
  destruct (insert_gap_spec a h vs rest i Hr Hi ltac:(lia)) as (h2 & x & z & Hmv & Hr2).
  pose proof (scale_le 0 (Z.of_nat i) ltac:(lia)) as H0.
  pose proof (scale_le (Z.of_nat i) (Array.capacity a) ltac:(lia)) as H1.
  assert (Array.insert malloc_zero_null uninit sizeT a (Z.of_nat i)
            (Array.InHeap (Array.slot sizeT a (Z.of_nat j))) h =
          (h3 ← ARRAY_MEMCPY (Array.slot sizeT a (Z.of_nat i))
                             (Array.slot sizeT a (Z.of_nat j)) sizeT h2;
           Done (Array.Arr (Array.data a) (Array.count a + 1) (Array.capacity a), h3)))
    as Hrun.
  { unfold Array.insert, Array.memcpy_from.
    replace (Z.of_nat i <=? Array.count a) with true by (symmetry; apply Z.leb_le; lia).
    rewrite (wrap_small (Array.count a + 1)) by lia.
    replace (Array.count a + 1 >? Array.capacity a) with false
      by (symmetry; rewrite Z.gtb_ltb; apply Z.ltb_ge; lia).
    cbn [mbind outcome_bind ARRAY_ASSERT Array.data Array.count Array.capacity].
    rewrite Hmv. cbn [mbind outcome_bind].
    unfold Array.slot. rewrite (wrap_small (Z.of_nat i * sizeT)) by lia.
    rewrite (wrap_small (Array.count a + 1)) by lia.
    reflexivity. }
  rewrite Hrun. clear Hrun. unfold ARRAY_MEMCPY.
  split.
  - intros Hne.
    set (k := if decide (j < i)%nat then j else (j - 1)%nat).
    destruct (lookup_lt_is_Some_2 vs k) as [w Hw].
    { unfold k. destruct (decide (j < i)%nat); lia. }
    assert ((take i vs ++ x :: drop i vs) !! j = Some w) as Hws.
    { unfold k in Hw. destruct (decide (j < i)%nat) as [Hlt | Hge].
      - rewrite lookup_app_l by (rewrite length_take; lia).
        rewrite lookup_take_lt by lia. exact Hw.
      - rewrite lookup_app_r by (rewrite length_take; lia).
        rewrite length_take, Nat.min_l by lia.
        replace (j - i)%nat with (S (j - 1 - i)) by lia. simpl.
        rewrite lookup_drop. replace (i + (j - 1 - i))%nat with (j - 1)%nat by lia.
        exact Hw. }
    assert (Z.of_nat (length w) = sizeT) as Hlw.
    { destruct Hr as (_ & _ & Hs & _). eapply (proj1 (Forall_lookup _ _) Hs); exact Hw. }
    pose proof (get_spec _ h2 _ z j w Hr2 Hws) as Hget. unfold Array.get in Hget.
    destruct (set_spec _ h2 _ z i w Hr2) as (h3 & Hset & Hr3 & _).
    { rewrite length_app, length_take. simpl. lia. }
    { exact Hlw. }
    unfold Array.set in Hset.
    replace (overlap (Array.slot sizeT a (Z.of_nat i)) (Array.slot sizeT a (Z.of_nat j)) sizeT)
      with false.
    2:{ symmetry. unfold overlap, Array.slot. simpl.
        rewrite Z.eqb_refl. simpl.
        destruct (Z.ltb_spec (Z.of_nat i * sizeT) (Z.of_nat j * sizeT)) as [Hlt | Hge].
        - assert ((Z.of_nat i + 1) * sizeT <= Z.of_nat j * sizeT) by nia.
          apply andb_false_intro2. apply Z.ltb_ge. lia.
        - assert ((Z.of_nat j + 1) * sizeT <= Z.of_nat i * sizeT) by nia.
          apply andb_false_intro1. apply Z.ltb_ge. lia. }
    exists (Array.Arr (Array.data a) (Array.count a + 1) (Array.capacity a)), h3, w.
    split; [exact Hw |].
    replace (<[i := w]> (take i vs ++ x :: drop i vs))
      with (take i vs ++ w :: drop i vs) in Hr3.
    2:{ rewrite insert_app_r_alt by (rewrite length_take; lia).
        rewrite length_take, Nat.min_l by lia. rewrite Nat.sub_diag. reflexivity. }
    split.
    { change (load (Array.slot sizeT a (Z.of_nat j)) sizeT h2) with
        (load (Array.slot sizeT
                 (Array.Arr (Array.data a) (Array.count a + 1) (Array.capacity a))
                 (Z.of_nat j)) sizeT h2).
      rewrite Hget. cbn [mbind outcome_bind].
      change (Array.slot sizeT a (Z.of_nat i)) with
        (Array.slot sizeT
           (Array.Arr (Array.data a) (Array.count a + 1) (Array.capacity a))
           (Z.of_nat i)).
      rewrite Hset. reflexivity. }
    split; [eapply rep_valid; exact Hr3 | eapply rep_holds; exact Hr3].
  - intros ->.
    replace (overlap (Array.slot sizeT a (Z.of_nat i)) (Array.slot sizeT a (Z.of_nat i)) sizeT)
      with true; [reflexivity |].
    symmetry. unfold overlap. rewrite Z.eqb_refl. simpl.
    apply andb_true_intro. split; apply Z.ltb_lt; lia.
Qed.

Lemma add_all_others (items : list Array.cref) :
  forall (values : list (list byte)) (a : Array.array_t) (h : heap) vs rest,
  rep a h vs rest -> Forall2 (Array.outside sizeT a h) items values -> sized values ->
  Array.capacity a <= Z.max 4 (2 * Array.count a) ->
  sizeT * Z.max 4 (2 * (Array.count a + Z.of_nat (length items))) < size_max ->
  exists a' h' rest',
    Array.add_all malloc_zero_null uninit sizeT a items h = Done (a', h') /\
    rep a' h' (vs ++ values) rest' /\
    Array.others a' h' = Array.others a h.
Proof.
  induction items as [| x items IH]; intros values a h vs rest Hr Hout Hs Hcap Hfit.
  - apply Forall2_nil_inv_l in Hout as ->.
    exists a, h, rest. rewrite app_nil_r. auto.
  - apply Forall2_cons_inv_l in Hout as (item & values' & Hx & Hout & ->).
    apply Forall_cons_1 in Hs as [Hitem Hs].
    pose proof (rep_bounds _ _ _ _ Hr) as (Hc & Hcm & Hcs).
    simpl length in Hfit.
    destruct (add_spec a h vs rest x item Hr Hx Hitem)
      as (a1 & h1 & rest1 & Hadd & Hr1 & Hcnt1 & _ & Hgrow & Hroom).
    { intros Hfull. eapply Z.le_lt_trans; [| exact Hfit]. apply scale_le. lia. }
    simpl. rewrite Hadd. simpl.
    pose proof (add_others _ _ _ _ _ _ (rep_valid _ _ _ _ Hr) Hadd) as Ho1.
    destruct (IH values' a1 h1 (vs ++ [item]) rest1 Hr1)
      as (a' & h' & rest' & Hrun & Hr' & Ho').
    + eapply Forall2_impl; [exact Hout |]. intros y w.
      eapply add_keeps_outside; [eapply rep_valid; exact Hr | exact Hadd].
    + exact Hs.
    + destruct (Z.le_gt_cases (Array.capacity a) (Array.count a + 1)) as [Hfull | Hfree].
      * destruct (Hgrow Hfull) as [-> _]. lia.
      * destruct (Hroom Hfree) as (-> & _ & _). lia.
    + rewrite Hcnt1. replace (Array.count a + 1 + Z.of_nat (length items))
        with (Array.count a + Z.of_nat (S (length items))) by lia. exact Hfit.
    + exists a', h', rest'. split; [exact Hrun |].
      rewrite <- app_assoc in Hr'. split; [exact Hr' | congruence].
Qed.

(** X15: filling an array and freeing it leaks nothing: after any number
    of [add] calls on the empty array followed by [free()], the live
    allocations are exactly those there were before, bytes included. *)
Theorem add_all_then_free_leaks_nothing (items : list Array.cref)
    (values : list (list byte)) (h : heap) :
  heap_ok h -> Forall2 (Array.outside sizeT Array.zero h) items values -> sized values ->
  sizeT * Z.max 4 (2 * Z.of_nat (length items)) < size_max ->
  exists a h1 h2,
    Array.add_all malloc_zero_null uninit sizeT Array.zero items h = Done (a, h1) /\
    Array.free a h1 = Done (Array.zero, h2) /\
    blocks h2 = blocks h.
Proof.
  intros Hok Hout Hs Hfit.
  destruct (add_all_others items values Array.zero h [] [] (rep_zero h Hok) Hout Hs)
    as (a & h1 & rest & Hrun & Hr & Ho); [simpl; lia | simpl; exact Hfit |].
  destruct (free_others a h1 (rep_valid _ _ _ _ Hr))
    as (h2 & Hf & Hb).
  exists a, h1, h2. split; [exact Hrun |]. split; [exact Hf |].
  rewrite Hb, Ho. reflexivity.
Qed.

Lemma copy_ptr (a r : Array.array_t) (h h' : heap) :
  Array.copy malloc_zero_null uninit sizeT a h = Done (r, h') ->
  Array.data r = null \/ Array.data r = Ptr (brk h) 0.
Proof.
  unfold Array.copy. intros H.
  destruct (ARRAY_MALLOC _ _ _ h) as [p h1] eqn:Em.
  apply malloc_blocks in Em as (_ & Hp).
  apply bind_Done in H as (h2 & _ & H). injection H as <- _. simpl.
  destruct Hp as [[-> _] | [-> _]]; auto.
Qed.

Lemma rep_frame (r : Array.array_t) (h h' : heap) ws rest :
  rep r h ws rest -> heap_ok h' ->
  buffer h' (Array.data r) = buffer h (Array.data r) -> rep r h' ws rest.
Proof.
  intros (_ & Hlen & Hs & Hb & Hl & Hm) Hok' Hsame.
  unfold Array.rep. rewrite Hsame.
  split; [exact Hok' |]. split; [exact Hlen |]. split; [exact Hs |].
  split; [exact Hb |]. split; [exact Hl | exact Hm].
Qed.

(** The buffers of an array and of its copy are different allocations. *)
Lemma copy_apart (a r : Array.array_t) (h h' : heap) vs rest :
  rep a h vs rest ->
  Array.copy malloc_zero_null uninit sizeT a h = Done (r, h') ->
  is_null (Array.data a) = false -> base (Array.data r) <> base (Array.data a).
Proof.
  intros Hr Hcp Hn.
  pose proof Hr as (Hok & _ & _ & Hb & _).
  pose proof (buffer_in_heap _ _ _ Hok Hb) as Hrange.
  apply buffer_cases in Hb as [[Hz _] | (_ & _ & Hl)]; [congruence |].
  assert (base (Array.data a) ∈ dom (blocks h)) as Hd by (apply elem_of_dom; eauto).
  apply (proj2 Hok) in Hd.
  apply copy_ptr in Hcp as [-> | ->]; simpl; lia.
Qed.

(** X16: [copy()] is a deep copy.  On every well-formed array it returns a
    well-formed array with the same [count], [capacity] and elements, and
    leaves the original as it was; afterwards a [set] on either of the two
    changes that one only. *)
Theorem copy_is_independent (a : Array.array_t) (h : heap) vs :
  valid a h -> holds a h vs ->
  exists r h',
    Array.copy malloc_zero_null uninit sizeT a h = Done (r, h') /\
    valid r h' /\ valid a h' /\ holds r h' vs /\ holds a h' vs /\
    Array.count r = Array.count a /\ Array.capacity r = Array.capacity a /\
    (forall (i : nat) (v : list byte),
       (i < length vs)%nat -> Z.of_nat (length v) = sizeT ->
       exists h2, Array.set sizeT a (Z.of_nat i) v h' = Done h2 /\
                  holds a h2 (<[i := v]> vs) /\ holds r h2 vs) /\
    (forall (i : nat) (v : list byte),
       (i < length vs)%nat -> Z.of_nat (length v) = sizeT ->
       exists h2, Array.set sizeT r (Z.of_nat i) v h' = Done h2 /\
                  holds r h2 (<[i := v]> vs) /\ holds a h2 vs).
Proof.
  intros Hv Hh.
  destruct (holds_rep a h vs Hv Hh) as (rest & Hr).
  destruct (copy_spec a h vs rest Hr)
    as (r & h' & rest' & Hcp & Hrr & Hra & Hcnt & Hcap & _).
  exists r, h'. split; [exact Hcp |].
  split; [eapply rep_valid; exact Hrr |]. split; [eapply rep_valid; exact Hra |].
  split; [eapply rep_holds; exact Hrr |]. split; [eapply rep_holds; exact Hra |].
  split; [exact Hcnt |]. split; [exact Hcap |].
  assert ((0 < length vs)%nat -> base (Array.data r) <> base (Array.data a)) as Hapart.
  { intros Hpos. eapply copy_apart; [exact Hr | exact Hcp |].
    destruct Hr as (_ & _ & Hs & Hb & _).
    destruct (is_null (Array.data a)) eqn:Hn; [| reflexivity].
    unfold buffer in Hb. rewrite Hn in Hb. injection Hb as Hb.
    symmetry in Hb. apply app_eq_nil in Hb as [Hb _].
    destruct vs as [| v0 vs']; [simpl in Hpos; lia |].
    apply Forall_cons_1 in Hs as [Hv0 _]. simpl in Hb.
    apply app_eq_nil in Hb as [Hb _]. subst v0. simpl in Hv0. lia. }
  split.
  - intros i v Hi Hlv.
    destruct (set_spec a h' vs rest i v Hra Hi Hlv) as (h2 & Hset & Hra2 & _).
    exists h2. split; [exact Hset |]. split; [eapply rep_holds; exact Hra2 |].
    eapply rep_holds. eapply rep_frame; [exact Hrr | apply Hra2 |].
    unfold Array.set in Hset. eapply store_other_buffer; [exact Hset |].
    simpl. apply Hapart. lia.
  - intros i v Hi Hlv.
    destruct (set_spec r h' vs rest' i v Hrr Hi Hlv) as (h2 & Hset & Hrr2 & _).
    exists h2. split; [exact Hset |]. split; [eapply rep_holds; exact Hrr2 |].
    eapply rep_holds. eapply rep_frame; [exact Hra | apply Hrr2 |].
    unfold Array.set in Hset. eapply store_other_buffer; [exact Hset |].
    simpl. intros He. apply Hapart; [lia | congruence].
Qed.

(** X17: the copy has a lifetime of its own: after [copy()], freeing the
    original leaves the copy well formed, with all its elements. *)
Theorem copy_survives_free (a : Array.array_t) (h : heap) vs :
  valid a h -> holds a h vs ->
  exists r h1 h2,
    Array.copy malloc_zero_null uninit sizeT a h = Done (r, h1) /\
    Array.free a h1 = Done (Array.zero, h2) /\
    valid r h2 /\ holds r h2 vs.
Proof.
  intros Hv Hh.
  destruct (holds_rep a h vs Hv Hh) as (rest & Hr).
  destruct (copy_spec a h vs rest Hr)
    as (r & h1 & rest' & Hcp & Hrr & Hra & _).
  pose proof Hra as (Hok1 & _ & _ & Hb1 & _).
  destruct (free_spec h1 (Array.data a) _ Hok1 Hb1) as (h2 & Hf & Hok2 & _ & _ & Hfr).
  exists r, h1, h2. split; [exact Hcp |].
  split; [unfold Array.free; rewrite Hf; reflexivity |].
  assert (rep r h2 vs rest') as Hrr2.
  { eapply rep_frame; [exact Hrr | exact Hok2 |]. apply Hfr.
    destruct (is_null (Array.data a)) eqn:Hn; [left; reflexivity | right].
    exact (copy_apart a r h h1 vs rest Hr Hcp Hn). }
  split; [eapply rep_valid; exact Hrr2 | eapply rep_holds; exact Hrr2].
Qed.

(** X18: indexing is unchecked.  On a well-formed array, [get], [operator[]]
    and [set] with an index at or beyond [capacity] access memory outside
    the buffer. *)
Theorem access_beyond_capacity (a : Array.array_t) (h : heap) (i : Z) :
  valid a h -> Array.capacity a <= i ->
  Array.get sizeT a i h = Undefined /\
  Array.index sizeT a i h = Undefined /\
  forall v, v <> [] -> Array.set sizeT a i v h = Undefined.
Proof.
  intros (Hok & Hc & Hm & bs & Hb & Hl) Hi.
  pose proof (scale_le _ _ Hi) as Hsi.
  assert (forall n, 0 < n ->
            load (Array.slot sizeT a i) n h = Undefined) as Hload.
  { intros n Hn. unfold load, Array.slot.
    replace (n =? 0) with false by (symmetry; apply Z.eqb_neq; lia). simpl.
    apply buffer_cases in Hb as [[Hz _] | (_ & Ho & Hlk)].
    - apply is_null_base in Hz. rewrite Hz.
      destruct (blocks h !! 0) eqn:E; [| reflexivity].
      assert (0 ∈ dom (blocks h)) as Hd by (apply elem_of_dom; eauto).
      apply (proj2 Hok) in Hd. lia.
    - rewrite Hlk, Ho.
      replace (0 + i * sizeT + n <=? Z.of_nat (length bs)) with false
        by (symmetry; apply Z.leb_gt; lia).
      rewrite andb_false_r. reflexivity. }
  split; [apply Hload; lia |]. split; [apply Hload; lia |].
  intros v Hv. unfold Array.set, store, Array.slot.
  assert (0 < Z.of_nat (length v)) as Hlv by (destruct v; [congruence | simpl; lia]).
  replace (Z.of_nat (length v) =? 0) with false by (symmetry; apply Z.eqb_neq; lia).
  simpl.
  apply buffer_cases in Hb as [[Hz _] | (_ & Ho & Hlk)].
  - apply is_null_base in Hz. rewrite Hz.
    destruct (blocks h !! 0) eqn:E; [| reflexivity].
    assert (0 ∈ dom (blocks h)) as Hd by (apply elem_of_dom; eauto).
    apply (proj2 Hok) in Hd. lia.
  - rewrite Hlk, Ho.
    replace (0 + i * sizeT + Z.of_nat (length v) <=? Z.of_nat (length bs)) with false
      by (symmetry; apply Z.leb_gt; lia).
    rewrite andb_false_r. reflexivity.
Qed.

(** X19: between [count] and [capacity] the unchecked accessors work on the
    unused slots: [get] returns whatever bytes the slot holds, and [set]
    writes them without changing [count] or any element of the array. *)
Theorem access_in_unused_slots (a : Array.array_t) (h : heap) vs (i : Z)
    (v : list byte) :
  valid a h -> holds a h vs -> Array.count a <= i < Array.capacity a ->
  Z.of_nat (length v) = sizeT ->
  (exists w, Array.get sizeT a i h = Done w) /\
  exists h', Array.set sizeT a i v h = Done h' /\
             valid a h' /\ holds a h' vs /\ Array.get sizeT a i h' = Done v.
Proof.
  intros Hv Hh Hi Hlv.
  destruct (holds_rep a h vs Hv Hh) as (rest & Hr).
  pose proof (rep_bounds _ _ _ _ Hr) as (Hc & Hcm & Hcs).
  destruct Hr as (Hok & Hlen & Hs & Hb & Hl & Hm).
  pose proof (length_concat_sized vs Hs) as Hlc. rewrite Hlen in Hlc.
  rewrite length_app in Hl.
  pose proof (scale_le 0 (i - Array.count a) ltac:(lia)) as H0.
  pose proof (scale_le (i + 1) (Array.capacity a) ltac:(lia)) as H1.
  destruct (split3 rest ((i - Array.count a) * sizeT) sizeT)
    as (x & y & z & -> & Hx & Hy); [lia | lia | lia |].
  assert (buffer h (Array.data a) = Some ((concat vs ++ x) ++ y ++ z)) as Hb1.
  { rewrite Hb, <- !app_assoc. reflexivity. }
  assert (i * sizeT = Z.of_nat (length (concat vs ++ x))) as Hoff
    by (rewrite length_app; lia).
  split.
  { exists y. unfold Array.get, Array.slot.
    eapply load_buf; [exact Hb1 | exact Hoff | lia]. }
  destruct (store_buf h (Array.data a) (i * sizeT) v _ _ _ Hb1 Hoff)
    as (h' & Hst & Hb' & _); [lia |].
  exists h'. split; [exact Hst |].
  assert (rep a h' vs (x ++ v ++ z)) as Hr'.
  { unfold Array.rep.
    split; [eapply store_heap_ok; eauto |]. split; [exact Hlen |].
    split; [exact Hs |]. split; [rewrite Hb', <- !app_assoc; reflexivity |].
    split; [| exact Hm]. rewrite !length_app in *. lia. }
  split; [eapply rep_valid; exact Hr' |]. split; [eapply rep_holds; exact Hr' |].
  unfold Array.get, Array.slot. eapply load_buf; [exact Hb' | exact Hoff | lia].
Qed.

(** ** The strided view *)

(** X21: on a view whose records lie inside one allocation, with the
    field inside the record ([offset + sizeof(T) <= stride]), [set(i, val)]
    writes [val] at the address of element [i] and changes the bytes of no
    other element; it allocates and releases nothing. *)
Theorem view_set_writes_one_element (v : View.array_view_t) (h : heap)
    (bs : list byte) (i : Z) (val : list byte) :
  blocks h !! base (View.data v) = Some bs ->
  0 <= off (View.data v) -> 0 <= View.offset v ->
  View.offset v + sizeT <= View.stride v ->
  View.count v * View.stride v < size_max ->
  off (View.data v) + View.count v * View.stride v <= Z.of_nat (length bs) ->
  0 <= i < View.count v -> Z.of_nat (length val) = sizeT ->
  exists h',
    View.set v i val h = Done h' /\
    load (View.element v i) sizeT h' = Done val /\
    (forall j, 0 <= j < View.count v -> j <> i ->
       load (View.element v j) sizeT h' = load (View.element v j) sizeT h) /\
    same_allocations h h'.
Proof.
  intros Hl Hoff Hoffset Hfield Hwrap Hfit Hi Hval.
  assert (forall j, 0 <= j < View.count v ->
            wrap (j * View.stride v) = j * View.stride v /\
            0 <= j * View.stride v /\
            (j + 1) * View.stride v <= View.count v * View.stride v) as Hj.
  { intros j Hj.
    assert (0 <= j * View.stride v) by (apply Z.mul_nonneg_nonneg; lia).
    assert ((j + 1) * View.stride v <= View.count v * View.stride v)
      by (apply Z.mul_le_mono_nonneg_r; lia).
    split; [apply wrap_small; lia | split; assumption]. }
  assert (exists h', View.set v i val h = Done h') as [h' Hset].
  { unfold View.set, store, View.element. simpl.
    destruct (Hj i Hi) as (-> & H0 & H1).
    replace (Z.of_nat (length val) =? 0) with false by (symmetry; apply Z.eqb_neq; lia).
    rewrite Hl.
    replace ((0 <=? off (View.data v) + i * View.stride v + View.offset v) &&
             (off (View.data v) + i * View.stride v + View.offset v +
              Z.of_nat (length val) <=? Z.of_nat (length bs)))%bool
      with true by (symmetry; apply andb_true_intro; split; apply Z.leb_le; lia).
    eauto. }
  exists h'. split; [exact Hset |]. unfold View.set in Hset.
  split; [rewrite <- Hval; eapply store_then_load; exact Hset |].
  split; [| eapply store_same; exact Hset].
  intros j Hjr Hne.
  eapply store_then_load_elsewhere; [exact Hset | | lia |].
  - unfold View.element. simpl. destruct (Hj j Hjr) as (-> & H0 & _). lia.
  - right. unfold View.element. simpl.
    destruct (Hj i Hi) as (-> & Hi0 & Hi1). destruct (Hj j Hjr) as (-> & Hj0 & Hj1).
    destruct (Z.lt_ge_cases j i) as [Hlt | Hge].
    + left.
      assert ((j + 1) * View.stride v <= i * View.stride v)
        by (apply Z.mul_le_mono_nonneg_r; lia).
      lia.
    + right.
      assert ((i + 1) * View.stride v <= j * View.stride v)
        by (apply Z.mul_le_mono_nonneg_r; lia).
      lia.
Qed.

End ArrayProperties.

(** ** Growth on [add] *)

(** C1: [add] tests [count + 1 >= capacity], not [count + 1 > capacity].
    After three [add] calls on the empty array the capacity is 4 and one
    allocation has been made; [count + 1 = 4] does not exceed the capacity,
    and yet the fourth [add] reallocates, to capacity 8. *)
Theorem four_adds_reallocate_twice :
  exists a3 h3 a4 h4,
    three_adds = Done (a3, h3) /\
    Array.count a3 = 3 /\ Array.capacity a3 = 4 /\ mallocs h3 = 1%nat /\
    Array.add false zeroed 1 a3 (Array.Local [x28]) h3 = Done (3, a4, h4) /\
    Array.count a4 = 4 /\ Array.capacity a4 = 8 /\ mallocs h4 = 2%nat /\
    Array.data a4 <> Array.data a3.
Proof.
  eexists _, _, _, _. split; [vm_compute; reflexivity |].
  split; [reflexivity |]. split; [reflexivity |]. split; [reflexivity |].
  split; [vm_compute; reflexivity |].
  split; [reflexivity |]. split; [reflexivity |]. split; [reflexivity |].
  discriminate.
Qed.

(** ** Preconditions *)

(** C2, as the code has it: [remove] with an index not below [count]
    (so every [remove] on an empty array), [pop] on an empty array and
    [insert] with an index above [count] stop at the fatal check.  [get],
    [set], [operator[]] and [last] contain no check: they never stop there,
    whatever the index. *)
Theorem fatal_check_in_remove_and_insert_only
    (malloc_zero_null : bool) (uninit : Z -> byte) (sizeT : Z)
    (a : Array.array_t) (h : heap) :
  (forall i, Array.count a <= i -> Array.remove sizeT a i h = AssertFailed) /\
  (Array.count a = 0 -> Array.pop sizeT a h = AssertFailed) /\
  (forall i x, Array.count a < i ->
     Array.insert malloc_zero_null uninit sizeT a i x h = AssertFailed) /\
  (forall id, Array.get sizeT a id h <> AssertFailed) /\
  (forall id, Array.index sizeT a id h <> AssertFailed) /\
  (forall id val, Array.set sizeT a id val h <> AssertFailed) /\
  Array.last sizeT a h <> AssertFailed.
Proof.
  assert (forall p n, load p n h <> AssertFailed) as Hload.
  { intros p n. unfold load. destruct (n =? 0); [discriminate |].
    destruct (blocks h !! base p); [| discriminate].
    destruct (_ && _); discriminate. }
  split.
  { intros i Hi. unfold Array.remove.
    replace (i <? Array.count a) with false by (symmetry; apply Z.ltb_ge; lia).
    reflexivity. }
  split.
  { intros H0. unfold Array.pop, Array.remove. rewrite H0. reflexivity. }
  split.
  { intros i x Hi. unfold Array.insert.
    replace (i <=? Array.count a) with false by (symmetry; apply Z.leb_gt; lia).
    reflexivity. }
  split; [intros id; apply Hload |]. split; [intros id; apply Hload |].
  split; [| apply Hload].
  intros id val. unfold Array.set, store.
  destruct (_ =? 0); [discriminate |].
  destruct (blocks h !! _); [| discriminate]. destruct (_ && _); discriminate.
Qed.

(** Against C2 as stated: after [add(10); add(20); pop()], [count] is 1 and [get(1)] is a
    contract violation; it returns the 20 still in the buffer.  [last()] on
    the empty array reads outside any allocation. *)
Lemma get_past_count_is_unchecked :
  exists a h,
    two_adds_and_pop = Done (a, h) /\ Array.count a = 1 /\
    Array.get 1 a 1 h = Done [x14] /\
    Array.get 1 a 1 h <> AssertFailed /\
    Array.last 1 Array.zero empty_heap = Undefined /\
    Array.last 1 Array.zero empty_heap <> AssertFailed.
Proof.
  eexists _, _. split; [vm_compute; reflexivity |].
  split; [reflexivity |]. split; [vm_compute; reflexivity |].
  split; [vm_compute; discriminate |].
  split; [vm_compute; reflexivity | vm_compute; discriminate].
Qed.

(** ** The null buffer *)

(** Against C3 as stated: with an allocator that answers a request of zero bytes with a pointer
    to a fresh allocation, [resize(0)] on the zeroed array leaves a non-null
    [data] with [capacity = 0]. *)
Lemma resize_zero_breaks_null_iff_empty :
  exists a h,
    Array.null_iff_empty Array.zero /\
    Array.resize false zeroed 1 Array.zero 0 empty_heap = Done (a, h) /\
    Array.capacity a = 0 /\ Array.data a = Ptr 4096 0 /\
    ~ Array.null_iff_empty a.
Proof.
  eexists _, _. split; [split; reflexivity |].
  split; [vm_compute; reflexivity |].
  split; [reflexivity |]. split; [reflexivity |].
  intros [_ H]. specialize (H eq_refl). discriminate H.
Qed.

(** ** Adding an element of the array to itself *)


(** ** The theorems at work on concrete arrays *)

Lemma demo_valid : Array.valid 1 demo_array demo_heap.
Proof.
  split.
  { split; [reflexivity |]. intros b Hb. simpl in Hb.
    rewrite dom_singleton_L in Hb. apply elem_of_singleton in Hb. subst b.
    split; reflexivity. }
  split; [simpl; lia |]. split; [reflexivity |].
  exists [x0a; x14; x00; x00]. split; reflexivity.
Qed.

Lemma full_valid : Array.valid 1 full_array full_heap.
Proof.
  split.
  { split; [reflexivity |]. intros b Hb. simpl in Hb.
    rewrite dom_insert_L, dom_singleton_L in Hb.
    apply elem_of_union in Hb as [Hb | Hb]; apply elem_of_singleton in Hb; subst b;
      split; reflexivity. }
  split; [simpl; lia |]. split; [reflexivity |].
  exists [x0a; x14]. split; reflexivity.
Qed.

Lemma full_holds : Array.holds 1 full_array full_heap [[x0a]; [x14]].
Proof.
  split; [reflexivity |]. intros i v Hi.
  destruct i as [| [| i]]; simpl in Hi; try discriminate Hi;
    injection Hi as <-; vm_compute; reflexivity.
Qed.

Lemma item_99_outside : Array.outside 1 full_array full_heap item_99 [x63].
Proof. split; [simpl; lia | vm_compute; reflexivity]. Qed.



Lemma resize_keeps_elements_witness :
  Array.valid 1 demo_array demo_heap /\
  exists a' h',
    Array.resize false zeroed 1 demo_array 1 demo_heap = Done (a', h') /\
    Array.capacity a' = 1 /\
    (1 < Array.count demo_array ->
     Array.count a' = 1 /\
     forall i, 0 <= i < 1 ->
       exists v, Array.get 1 demo_array i demo_heap = Done v /\
                 Array.get 1 a' i h' = Done v) /\
    (Array.count demo_array <= 1 ->
     Array.count a' = Array.count demo_array /\
     forall i, 0 <= i < Array.count demo_array ->
       exists v, Array.get 1 demo_array i demo_heap = Done v /\
                 Array.get 1 a' i h' = Done v).
Proof.
  split; [exact demo_valid |].
  apply (resize_keeps_elements false zeroed 1).
  - lia.
  - exact demo_valid.
  - lia.
  - reflexivity.
Defined.

Lemma reverse_mirror_and_involution_witness :
  Array.valid 1 demo_array demo_heap /\
  exists h1 h2,
    Array.reverse 1 demo_array demo_heap = Done h1 /\
    Array.reverse 1 demo_array h1 = Done h2 /\
    Array.valid 1 demo_array h1 /\ Array.valid 1 demo_array h2 /\
    (forall i, 0 <= i < Array.count demo_array ->
       exists v, Array.get 1 demo_array (Array.count demo_array - 1 - i) demo_heap
                   = Done v /\
                 Array.get 1 demo_array i h1 = Done v) /\
    (forall i, 0 <= i < Array.count demo_array ->
       exists v, Array.get 1 demo_array i demo_heap = Done v /\
                 Array.get 1 demo_array i h2 = Done v).
Proof.
  split; [exact demo_valid |].
  apply (reverse_mirror_and_involution 1).
  - lia.
  - exact demo_valid.
Defined.

Lemma null_iff_empty_preserved_witness :
  Array.valid 1 demo_array demo_heap /\ Array.null_iff_empty demo_array /\
  (exists a' h',
     Array.resize false zeroed 1 demo_array 3 demo_heap = Done (a', h') /\
     (Array.null_iff_empty a' <-> 0 < 3 \/ false = true) /\
     (3 = 0 -> false = false -> Array.capacity a' = 0 /\ Array.data a' <> null)) /\
  (exists a' h',
     Array.resize false zeroed 1 demo_array 0 demo_heap = Done (a', h') /\
     (Array.null_iff_empty a' <-> 0 < 0 \/ false = true) /\
     (0 = 0 -> false = false -> Array.capacity a' = 0 /\ Array.data a' <> null)).
Proof.
  assert (Array.null_iff_empty demo_array) as Hinv.
  { split; intros H; discriminate H. }
  split; [exact demo_valid |]. split; [exact Hinv |].
  destruct (null_iff_empty_preserved false zeroed 1 ltac:(lia)
              demo_array demo_heap demo_valid Hinv)
    as (_ & _ & _ & _ & _ & _ & _ & _ & Hresize & _).
  split; [apply (Hresize 3); [lia | reflexivity] | apply (Hresize 0); [lia | reflexivity]].
Defined.

Lemma no_reallocation_witness :
  exists a' h',
    Array.remove 1 demo_array 0 demo_heap = Done (a', h') /\
    Array.data a' = Array.data demo_array /\
    Array.capacity a' = Array.capacity demo_array /\
    same_allocations demo_heap h'.
Proof.
  eexists _, _. split; [vm_compute; reflexivity |].
  destruct (no_reallocation false zeroed 1 demo_array demo_heap)
    as (_ & _ & _ & Hremove & _).
  apply (Hremove 0). vm_compute. reflexivity.
Defined.

Lemma fatal_check_in_remove_and_insert_only_witness :
  Array.pop 1 Array.zero empty_heap = AssertFailed /\
  Array.remove 1 demo_array 2 demo_heap = AssertFailed /\
  Array.insert false zeroed 1 demo_array 3 (Array.Local [x63]) demo_heap = AssertFailed.
Proof.
  destruct (fatal_check_in_remove_and_insert_only false zeroed 1 Array.zero empty_heap)
    as (_ & Hpop & _).
  destruct (fatal_check_in_remove_and_insert_only false zeroed 1 demo_array demo_heap)
    as (Hremove & _ & Hinsert & _).
  split; [apply Hpop; reflexivity |].
  split; [apply Hremove; simpl; lia | apply Hinsert; simpl; lia].
Defined.

Lemma demo_holds : Array.holds 1 demo_array demo_heap [[x0a]; [x14]].
Proof.
  split; [reflexivity |]. intros i v Hi.
  destruct i as [| [| i]]; simpl in Hi; try discriminate Hi;
    injection Hi as <-; vm_compute; reflexivity.
Qed.

Lemma records_heap_ok : heap_ok records_heap.
Proof.
  split; [reflexivity |]. intros b Hb. simpl in Hb.
  rewrite dom_singleton_L in Hb. apply elem_of_singleton in Hb. subst b.
  split; reflexivity.
Qed.


Lemma pop_drops_last_witness :
  Array.holds 1 demo_array demo_heap ([[x0a]] ++ [[x14]]) /\
  exists a' h',
    Array.pop 1 demo_array demo_heap = Done (a', h') /\
    Array.valid 1 a' h' /\ Array.holds 1 a' h' [[x0a]].
Proof.
  split; [exact demo_holds |].
  exact (pop_drops_last 1 ltac:(lia) demo_array demo_heap [[x0a]] [x14]
           demo_valid demo_holds).
Defined.

Lemma add_then_pop_restores_witness :
  exists r a1 h1 a2 h2,
    Array.add false zeroed 1 full_array item_99 full_heap = Done (r, a1, h1) /\
    Array.pop 1 a1 h1 = Done (a2, h2) /\
    Array.count a2 = Array.count full_array /\
    Array.holds 1 a2 h2 [[x0a]; [x14]] /\
    Array.capacity a2 = Array.capacity a1 /\ Array.data a2 = Array.data a1.
Proof.
  apply (add_then_pop_restores false zeroed 1 ltac:(lia) full_array full_heap
           [[x0a]; [x14]] item_99 [x63] full_valid full_holds item_99_outside).
  - reflexivity.
  - intros _. reflexivity.
Defined.


Lemma remove_shifts_down_witness :
  exists a' h',
    Array.remove 1 demo_array 0 demo_heap = Done (a', h') /\
    Array.valid 1 a' h' /\ Array.holds 1 a' h' [[x14]].
Proof.
  apply (remove_shifts_down 1 ltac:(lia) demo_array demo_heap
           [[x0a]; [x14]] 0%nat demo_valid demo_holds).
  simpl. lia.
Defined.

Lemma set_then_get_witness :
  exists h',
    Array.set 1 demo_array 1 [x63] demo_heap = Done h' /\
    Array.valid 1 demo_array h' /\
    Array.holds 1 demo_array h' [[x0a]; [x63]] /\
    Array.get 1 demo_array 1 h' = Done [x63].
Proof.
  apply (set_then_get 1 ltac:(lia) demo_array demo_heap
           [[x0a]; [x14]] 1%nat [x63] demo_valid demo_holds).
  - simpl. lia.
  - reflexivity.
Defined.



Lemma add_leaves_a_spare_slot_witness :
  exists r a' h',
    Array.add false zeroed 1 demo_array (Array.Local [x1e]) demo_heap
      = Done (r, a', h') /\
    Array.count a' < Array.capacity a'.
Proof.
  apply (add_leaves_a_spare_slot false zeroed 1 ltac:(lia) demo_array demo_heap
           (Array.Local [x1e]) [x1e] demo_valid).
  - reflexivity.
  - reflexivity.
  - intros _. reflexivity.
Defined.

Lemma add_all_capacity_bound_witness :
  exists a h',
    Array.add_all false zeroed 1 Array.zero
      [Array.Local [x0a]; Array.Local [x14]; Array.Local [x1e]] empty_heap
      = Done (a, h') /\
    3 < Array.capacity a <= 6.
Proof.
  apply (add_all_capacity_bound false zeroed 1 ltac:(lia)
           [Array.Local [x0a]; Array.Local [x14]; Array.Local [x1e]]
           [[x0a]; [x14]; [x1e]] empty_heap heap_ok_empty).
  - repeat constructor.
  - repeat constructor.
  - discriminate.
  - reflexivity.
Defined.

Lemma clear_then_add_reuses_buffer_witness :
  exists a' h',
    Array.add false zeroed 1 (Array.clear demo_array) (Array.Local [x63]) demo_heap
      = Done (0, a', h') /\
    Array.valid 1 a' h' /\ Array.holds 1 a' h' [[x63]] /\
    Array.data a' = Array.data demo_array /\
    Array.capacity a' = Array.capacity demo_array /\
    same_allocations demo_heap h'.
Proof.
  apply (clear_then_add_reuses_buffer false zeroed 1 ltac:(lia) demo_array demo_heap
           (Array.Local [x63]) [x63] demo_valid).
  - simpl. lia.
  - reflexivity.
  - reflexivity.
Defined.


Lemma free_releases_the_buffer_witness :
  exists h',
    Array.free demo_array demo_heap = Done (Array.zero, h') /\
    heap_ok h' /\ blocks h' = Array.others demo_array demo_heap /\
    Array.free Array.zero h' = Done (Array.zero, h') /\
    (is_null (Array.data demo_array) = false ->
     forall i, Array.get 1 demo_array i h' = Undefined).
Proof.
  exact (free_releases_the_buffer 1 ltac:(lia) demo_array demo_heap demo_valid).
Defined.

Lemma resize_moves_the_buffer_witness :
  exists a' h',
    Array.resize false zeroed 1 demo_array 4 demo_heap = Done (a', h') /\
    Array.valid 1 a' h' /\ Array.data a' <> Array.data demo_array /\
    forall i, Array.get 1 demo_array i h' = Undefined.
Proof.
  apply (resize_moves_the_buffer false zeroed 1 ltac:(lia) demo_array demo_heap 4
           demo_valid).
  - reflexivity.
  - lia.
  - reflexivity.
Defined.

Lemma add_all_then_free_leaks_nothing_witness :
  exists a h1 h2,
    Array.add_all false zeroed 1 Array.zero
      [Array.Local [x0a]; Array.Local [x14]; Array.Local [x1e]] empty_heap
      = Done (a, h1) /\
    Array.free a h1 = Done (Array.zero, h2) /\
    blocks h2 = blocks empty_heap.
Proof.
  apply (add_all_then_free_leaks_nothing false zeroed 1 ltac:(lia)
           [Array.Local [x0a]; Array.Local [x14]; Array.Local [x1e]]
           [[x0a]; [x14]; [x1e]] empty_heap heap_ok_empty).
  - repeat constructor.
  - repeat constructor.
  - reflexivity.
Defined.

Lemma copy_is_independent_witness :
  exists r h',
    Array.copy false zeroed 1 demo_array demo_heap = Done (r, h') /\
    Array.holds 1 r h' [[x0a]; [x14]] /\
    exists h2, Array.set 1 demo_array 0 [x63] h' = Done h2 /\
               Array.holds 1 demo_array h2 [[x63]; [x14]] /\
               Array.holds 1 r h2 [[x0a]; [x14]].
Proof.
  destruct (copy_is_independent false zeroed 1 ltac:(lia) demo_array demo_heap
              [[x0a]; [x14]] demo_valid demo_holds)
    as (r & h' & Hcp & _ & _ & Hr & _ & _ & _ & Hset & _).
  exists r, h'. split; [exact Hcp |]. split; [exact Hr |].
  apply (Hset 0%nat [x63]); [simpl; lia | reflexivity].
Defined.

Lemma copy_survives_free_witness :
  exists r h1 h2,
    Array.copy false zeroed 1 demo_array demo_heap = Done (r, h1) /\
    Array.free demo_array h1 = Done (Array.zero, h2) /\
    Array.valid 1 r h2 /\ Array.holds 1 r h2 [[x0a]; [x14]].
Proof.
  exact (copy_survives_free false zeroed 1 ltac:(lia) demo_array demo_heap
           [[x0a]; [x14]] demo_valid demo_holds).
Defined.

Lemma access_beyond_capacity_witness :
  Array.get 1 demo_array 4 demo_heap = Undefined /\
  Array.index 1 demo_array 4 demo_heap = Undefined /\
  forall v, v <> [] -> Array.set 1 demo_array 4 v demo_heap = Undefined.
Proof.
  apply (access_beyond_capacity 1 ltac:(lia) demo_array demo_heap 4 demo_valid).
  simpl. lia.
Defined.

Lemma access_in_unused_slots_witness :
  (exists w, Array.get 1 demo_array 3 demo_heap = Done w) /\
  exists h', Array.set 1 demo_array 3 [x63] demo_heap = Done h' /\
             Array.valid 1 demo_array h' /\
             Array.holds 1 demo_array h' [[x0a]; [x14]] /\
             Array.get 1 demo_array 3 h' = Done [x63].
Proof.
  apply (access_in_unused_slots 1 ltac:(lia) demo_array demo_heap
           [[x0a]; [x14]] 3 [x63] demo_valid demo_holds).
  - simpl. lia.
  - reflexivity.
Defined.

Lemma view_set_writes_one_element_witness :
  exists h',
    View.set (View.View (Ptr 4096 0) 3 3 1) 1 [x63] records_heap
      = Done h' /\
    load (View.element (View.View (Ptr 4096 0) 3 3 1) 1) 1 h'
      = Done [x63] /\
    (forall j, 0 <= j < 3 -> j <> 1 ->
       load (View.element (View.View (Ptr 4096 0) 3 3 1) j) 1 h'
       = load (View.element (View.View (Ptr 4096 0) 3 3 1) j) 1
           records_heap) /\
    same_allocations records_heap h'.
Proof.
  apply (view_set_writes_one_element 1 ltac:(lia)
           (View.View (Ptr 4096 0) 3 3 1) records_heap
           [x01; x0a; x64; x02; x14; xc8; x03; x1e; xc9]).
  - reflexivity.
  - simpl. lia.
  - simpl. lia.
  - simpl. lia.
  - reflexivity.
  - simpl. lia.
  - simpl. lia.
  - reflexivity.
Defined.

Lemma growth_policy_witness :
  (exists r a' h',
     Array.add false zeroed 1 demo_array (Array.Local [x1e]) demo_heap
       = Done (r, a', h') /\
     Array.capacity a' = 4 /\ Array.data a' = Array.data demo_array /\
     mallocs h' = mallocs demo_heap) /\
  (exists a' h',
     Array.insert false zeroed 1 demo_array 1 (Array.Local [x1e]) demo_heap
       = Done (a', h') /\
     Array.capacity a' = 4 /\ Array.data a' = Array.data demo_array /\
     mallocs h' = mallocs demo_heap).
Proof.
  apply (growth_policy false zeroed 1 ltac:(lia) demo_array demo_heap 1
           (Array.Local [x1e]) [x1e] demo_valid).
  - simpl. lia.
  - reflexivity.
  - reflexivity.
  - reflexivity.
Defined.

Lemma add_of_own_element_in_place_witness :
  exists a' h',
    Array.add false zeroed 1 demo_array (Array.InHeap (Array.slot 1 demo_array 0))
      demo_heap = Done (2, a', h') /\
    Array.valid 1 a' h' /\ Array.holds 1 a' h' [[x0a]; [x14]; [x0a]] /\
    Array.data a' = Array.data demo_array /\
    Array.capacity a' = Array.capacity demo_array.
Proof.
  apply (add_of_own_element_in_place false zeroed 1 ltac:(lia) demo_array demo_heap
           [[x0a]; [x14]] 0%nat [x0a] demo_valid demo_holds).
  - reflexivity.
  - simpl. lia.
Defined.

Lemma add_of_own_element_dangles_on_growth_witness :
  Array.get 1 full_array 0 full_heap = Done [x0a] /\
  Array.add false zeroed 1 full_array (Array.InHeap (Array.slot 1 full_array 0))
    full_heap = Undefined.
Proof.
  split; [vm_compute; reflexivity |].
  apply (add_of_own_element_dangles_on_growth false zeroed 1 ltac:(lia)
           full_array full_heap 0 full_valid).
  - reflexivity.
  - simpl. lia.
  - reflexivity.
Defined.

(** [insert(0, get(1))] on the array holding 10 and 20 inserts 10. *)
Lemma insert_of_own_element_reads_after_the_shift_witness :
  Array.get 1 demo_array 1 demo_heap = Done [x14] /\
  exists a' h' w,
    [[x0a]; [x14]] !! 0%nat = Some w /\
    Array.insert false zeroed 1 demo_array 0
      (Array.InHeap (Array.slot 1 demo_array 1)) demo_heap = Done (a', h') /\
    Array.valid 1 a' h' /\ Array.holds 1 a' h' ([] ++ w :: [[x0a]; [x14]]).
Proof.
  split; [vm_compute; reflexivity |].
  destruct (insert_of_own_element_reads_after_the_shift false zeroed 1 ltac:(lia)
              demo_array demo_heap [[x0a]; [x14]] 0%nat 1%nat demo_valid demo_holds)
    as [Hother _]; [simpl; lia | simpl; lia | simpl; lia |].
  apply Hother. discriminate.
Defined.
